(** * StatusMonitor: the timeline resolver, the display mapper and the
      progress aggregator of [src/components/StatusMonitor.tsx]

    The component keeps three pieces of React state ([apiTweets],
    [loadingTimeline], [useFallback]), refreshes them with the asynchronous
    [fetchTimeline], and derives [displayItems], [isShowingHistory] and
    [progress] from state and props on every render.

    State setters are all called with plain values (never with an updater
    function), so a setter overwrites the stored value whatever closure it
    is called from: the component state is modelled as one record that the
    setters update in place. *)

From Stdlib Require Import ZArith Lia Bool List QArith Qround.
From Stdlib Require Import Floats.SpecFloat.
From stdpp Require Import base tactics option list strings gmap.

Local Open Scope string_scope.

(** ** Data model *)

(** Modelled from the spec: the declaration of [Tweet] lives in
    [services/api] and that of [PostHistoryItem] in [HistoryGrid]; the
    component reads the fields [id], [text], [createdAt] of the former and
    [id], [text], [timestamp], [postUrl] of the latter. Timestamps are kept
    as the strings the component passes on to [new Date]. *)
Record Tweet := mkTweet {
  tweet_id : string;
  tweet_text : string;
  tweet_createdAt : string
}.

Record PostHistoryItem := mkHistory {
  hist_id : string;
  hist_text : string;
  hist_timestamp : string;
  hist_postUrl : string
}.

Inductive Status := pending | posting | success | failed.

#[global] Instance Status_eq_dec : EqDecision Status.
Proof. solve_decision. Defined.

Record PostGroup := mkGroup {
  group_id : string;
  images : list string;
  status : Status;
  error : option string;
  retryCount : nat
}.

(** The object literal built by both branches of [displayItems]. *)
Record DisplayItem := mkItem {
  item_id : string;
  item_text : string;
  item_createdAt : string;
  item_source : string;
  item_url : string
}.

(** ** Component state *)

Inductive Level := LogWarn | LogError.

Record LogEntry := mkLog {
  log_level : Level;
  log_message : string;
  log_detail : string
}.

(** The three [useState] cells, and the console the component writes to. *)
Record Component := mkComponent {
  apiTweets : list Tweet;
  loadingTimeline : bool;
  useFallback : bool;
  console : list LogEntry
}.

(** [useState([])], [useState(false)], [useState(false)]. *)
Definition initial : Component :=
  {| apiTweets := []; loadingTimeline := false; useFallback := false;
     console := [] |}.

(** ** A state monad with exceptions

    A statement either completes or throws; in both cases the writes it
    made to the component state remain. *)
Module Js.

Inductive Completion (A : Type) :=
| Normal (a : A)
| Throw (e : string).
Arguments Normal {A} a.
Arguments Throw {A} e.

Definition M (A : Type) := Component -> Component * Completion A.

Definition ret {A} (a : A) : M A := fun s => (s, Normal a).

Definition bind {A B} (c : M A) (k : A -> M B) : M B :=
  fun s =>
    match c s with
    | (s', Normal a) => k a s'
    | (s', Throw e) => (s', Throw e)
    end.

Definition throw {A} (e : string) : M A := fun s => (s, Throw e).

(** [try { body } catch (error) { handler } finally { cleanup }]: the
    cleanup runs on every path, and what escapes is the completion of the
    body or of the handler (or of the cleanup when it throws itself). *)
Definition try_catch_finally {A} (body : M A) (handler : string -> M A)
    (cleanup : M unit) : M A :=
  fun s =>
    let '(s1, r1) :=
      match body s with
      | (s', Normal a) => (s', Normal a)
      | (s', Throw e) => handler e s'
      end in
    match cleanup s1 with
    | (s2, Normal _) => (s2, r1)
    | (s2, Throw e) => (s2, Throw e)
    end.

Definition exec {A} (c : M A) (s : Component) : Component := fst (c s).
Definition completion {A} (c : M A) (s : Component) : Completion A :=
  snd (c s).

End Js.

Import Js.

#[global] Instance M_ret : MRet M := @ret.
#[global] Instance M_bind : MBind M := fun A B k c => bind c k.

(** *** The setters and the console *)

Definition setApiTweets (tweets : list Tweet) : M unit :=
  fun s => ({| apiTweets := tweets;
               loadingTimeline := loadingTimeline s;
               useFallback := useFallback s;
               console := console s |}, Normal tt).

Definition setLoadingTimeline (b : bool) : M unit :=
  fun s => ({| apiTweets := apiTweets s;
               loadingTimeline := b;
               useFallback := useFallback s;
               console := console s |}, Normal tt).

Definition setUseFallback (b : bool) : M unit :=
  fun s => ({| apiTweets := apiTweets s;
               loadingTimeline := loadingTimeline s;
               useFallback := b;
               console := console s |}, Normal tt).

Definition console_warn (message detail : string) : M unit :=
  fun s => ({| apiTweets := apiTweets s;
               loadingTimeline := loadingTimeline s;
               useFallback := useFallback s;
               console := console s ++ [mkLog LogWarn message detail] |},
            Normal tt).

(** ** fetchTimeline *)

(** How the promise returned by [getTimeline()] settles. *)
Inductive Settled :=
| Fulfilled (tweets : list Tweet)
| Rejected (error : string).

(** [await p]: the value of a fulfilled promise, a throw for a rejected
    one. *)
Definition await (p : Settled) : M (list Tweet) :=
  match p with
  | Fulfilled tweets => ret tweets
  | Rejected error => throw error
  end.

(** The part of [fetchTimeline] that runs synchronously in the call, up to
    the call of [getTimeline()] at which the function suspends. *)
Definition fetchTimeline_begin : M unit :=
  setLoadingTimeline true;;
  setUseFallback false.

(** The part that runs once the awaited promise has settled. An array is
    truthy, so [tweets && tweets.length > 0] is the length test; the inner
    [if (tweets.length === 0) { }] has an empty body. *)
Definition fetchTimeline_resume (p : Settled) : M unit :=
  try_catch_finally
    (tweets ← await p;
     if (0 <? length tweets)%nat then
       setApiTweets tweets;;
       setUseFallback false
     else
       setApiTweets tweets)
    (fun error =>
       console_warn "Timeline API failed, falling back to history:" error;;
       setUseFallback true)
    (setLoadingTimeline false).

(** One whole fetch that nothing interleaves with. *)
Definition fetchTimeline (p : Settled) : M unit :=
  fetchTimeline_begin;;
  fetchTimeline_resume p.

(** ** Derived view data *)

Definition history_item (h : PostHistoryItem) : DisplayItem :=
  {| item_id := hist_id h;
     item_text := hist_text h;
     item_createdAt := hist_timestamp h;
     item_source := "history";
     item_url := hist_postUrl h |}.

Definition api_item (t : Tweet) : DisplayItem :=
  {| item_id := tweet_id t;
     item_text := tweet_text t;
     item_createdAt := tweet_createdAt t;
     item_source := "api";
     item_url := "https://twitter.com/i/web/status/" +:+ tweet_id t |}.

Definition isShowingHistory (s : Component) : bool :=
  useFallback s || (length (apiTweets s) =? 0)%nat.

(** [history.slice(0, 5)] is [take 5 history]. *)
Definition displayItems (s : Component) (history : list PostHistoryItem)
    : list DisplayItem :=
  if useFallback s || (length (apiTweets s) =? 0)%nat
  then map history_item (take 5 history)
  else map api_item (apiTweets s).

(** ** The component over time

    Calls of [fetchTimeline] may overlap: each call suspends at its [await]
    and is resumed when its own promise settles, in whatever order the
    promises settle. A world holds the component state, the current value
    of the [isPosting] prop, the calls that are suspended (by call number),
    and the rejections that escaped an [async] call. *)
Record World := mkWorld {
  ui : Component;
  isPosting : bool;
  inflight : gset nat;
  issued : nat;
  unhandled : list string
}.

(** Runs a piece of an [async] function on the component state; a throw
    that escapes it becomes an unhandled rejection. *)
Definition run (c : M unit) (w : World) : World :=
  {| ui := exec c (ui w);
     isPosting := isPosting w;
     inflight := inflight w;
     issued := issued w;
     unhandled := match completion c (ui w) with
                  | Normal _ => unhandled w
                  | Throw e => unhandled w ++ [e]
                  end |}.

(** A call [fetchTimeline()]: the synchronous prefix runs, [getTimeline()]
    is invoked, and the call is left suspended on the new promise. *)
Definition call_fetchTimeline (w : World) : World :=
  let w' := run fetchTimeline_begin w in
  {| ui := ui w';
     isPosting := isPosting w';
     inflight := {[issued w]} ∪ inflight w';
     issued := S (issued w);
     unhandled := unhandled w' |}.

(** The promise of call [rid] settles and the call resumes. *)
Definition resume_fetchTimeline (rid : nat) (p : Settled) (w : World)
    : World :=
  let w' := run (fetchTimeline_resume p) w in
  {| ui := ui w';
     isPosting := isPosting w';
     inflight := inflight w' ∖ {[rid]};
     issued := issued w';
     unhandled := unhandled w' |}.

(** [<button onClick={fetchTimeline} disabled={loadingTimeline}>]. *)
Definition refresh_disabled (s : Component) : bool := loadingTimeline s.

Inductive Event :=
| PostingProp (b : bool)   (* the parent renders with [isPosting = b] *)
| ClickRefresh             (* a click on the refresh button *)
| Settle (rid : nat) (p : Settled).

(** [useEffect(() => { fetchTimeline(); }, [isPosting])] runs the effect
    after the first render and after each render in which [isPosting]
    differs from its previous value; a disabled button dispatches no click;
    only a suspended call can resume. *)
Definition step (w : World) (ev : Event) : option World :=
  match ev with
  | PostingProp b =>
      let w' := {| ui := ui w; isPosting := b; inflight := inflight w;
                   issued := issued w; unhandled := unhandled w |} in
      Some (if Bool.eqb b (isPosting w) then w' else call_fetchTimeline w')
  | ClickRefresh =>
      Some (if refresh_disabled (ui w) then w else call_fetchTimeline w)
  | Settle rid p =>
      if decide (rid ∈ inflight w)
      then Some (resume_fetchTimeline rid p w)
      else None
  end.

Fixpoint steps (w : World) (evs : list Event) : option World :=
  match evs with
  | [] => Some w
  | ev :: evs' =>
      match step w ev with
      | Some w' => steps w' evs'
      | None => None
      end
  end.

(** The component right after its first render with [isPosting = b]: the
    effect has run once. *)
Definition mount (b : bool) : World :=
  call_fetchTimeline
    {| ui := initial; isPosting := b; inflight := ∅; issued := 0;
       unhandled := [] |}.

(** ** Numbers

    A JavaScript Number is an IEEE 754 binary64 value; [/] and [*] round to
    nearest, ties to even. The Standard Library's executable specification
    of binary floating point is instantiated at 53 bits of precision. *)
Module Number.

Definition Number := spec_float.

Definition prec : Z := 53.
Definition emax : Z := 1024.

(** The Number nearest to an integer; exact below [2^53]. *)
Definition of_Z (z : Z) : Number := binary_normalize prec emax z 0 false.
Definition of_nat (n : nat) : Number := of_Z (Z.of_nat n).

Definition div (x y : Number) : Number := SFdiv prec emax x y.
Definition mul (x y : Number) : Number := SFmul prec emax x y.

(** [Math.round(x)]: [x] itself when it is not finite or is integral,
    otherwise the integer closest to [x], the larger one on a tie, with a
    zero result taking the sign of [x]. For [x = ±m·2^e] with [e < 0] that
    integer is [floor (x + 1/2) = floor ((±2m + 2^-e) / 2^(1-e))]. *)
Definition Math_round (x : Number) : Number :=
  match x with
  | S754_finite s m e =>
      if (0 <=? e)%Z then x
      else binary_normalize prec emax
             ((2 * cond_Zopp s (Zpos m) + 2 ^ (- e)) / 2 ^ (1 - e))%Z 0 s
  | _ => x
  end.

End Number.

Import Number.

(** ** The progress aggregator *)

(** [groups.filter(g => g.status === 'success').length] *)
Definition successCount (groups : list PostGroup) : nat :=
  length (filter (fun g => status g = success) groups).

(** [Math.round((successCount / Math.max(groups.length, 1)) * 100)]; both
    arguments of [Math.max] are integers, so it is the maximum of the two
    integers. *)
Definition progress (groups : list PostGroup) : Number :=
  Math_round
    (mul (div (of_nat (successCount groups))
              (of_nat (Nat.max (length groups) 1)))
         (of_Z 100)).

(** ** Rendering

    One row of the group list: its key, the number shown, the image count,
    the status, and whether it is highlighted as the group being posted. *)
Record GroupRow := mkRow {
  row_key : string;
  row_number : nat;
  row_images : nat;
  row_status : Status;
  row_current : bool
}.

(** What the top panel shows: the placeholder, or the bar of width
    [progress]%, the [successCount / groups.length] caption and one row per
    group. *)
Inductive StatusPanel :=
| Awaiting
| ProgressBar (width : Number) (done total : nat) (rows : list GroupRow).

Definition group_row (posting : bool) (currentGroupIndex : Z) (index : nat)
    (group : PostGroup) : GroupRow :=
  {| row_key := group_id group;
     row_number := index + 1;
     row_images := length (images group);
     row_status := status group;
     row_current := (Z.of_nat index =? currentGroupIndex)%Z && posting |}.

Definition renderStatus (groups : list PostGroup) (posting : bool)
    (currentGroupIndex : Z) : StatusPanel :=
  if (length groups =? 0)%nat then Awaiting
  else ProgressBar (progress groups) (successCount groups) (length groups)
         (imap (group_row posting currentGroupIndex) groups).

(** What the bottom panel shows. *)
Inductive TimelinePanel :=
| Spinner
| NoPosts
| Posts (items : list DisplayItem).

Definition renderTimeline (s : Component) (history : list PostHistoryItem)
    : TimelinePanel :=
  if loadingTimeline s then Spinner
  else if (length (displayItems s history) =? 0)%nat then NoPosts
  else Posts (displayItems s history).

(** ** The specification's wording of the aggregator

    [spec_successCount] counts the groups whose status is [success];
    [spec_percentage] is "round(successCount / max(total, 1) × 100)" read
    in exact rational arithmetic, a half rounded up as [Math.round] does:
    the floor of the exact value plus one half. *)
Fixpoint spec_successCount (groups : list PostGroup) : nat :=
  match groups with
  | [] => 0
  | group :: rest =>
      match status group with
      | success => S (spec_successCount rest)
      | _ => spec_successCount rest
      end
  end.

Definition spec_percentage (successes total : nat) : Z :=
  Qfloor (inject_Z (Z.of_nat successes)
          / inject_Z (Z.of_nat (Nat.max total 1)) * inject_Z 100
          + (1 # 2))%Q.

(** ** Auxiliary notions for the proofs *)

(** Call numbers are handed out in increasing order, so every suspended
    call has a number below [issued]. *)
Definition well_formed (w : World) : bool :=
  forallb (fun rid => rid <? issued w)%nat (elements (inflight w)).

Definition inexact (l : location) : bool :=
  match l with loc_Exact => false | loc_Inexact _ => true end.

(** The mantissa [m], known up to the location [l], after a right shift by
    [k] places and rounding to nearest, ties to even. *)
Definition round_shifted (m : Z) (l : location) (k : Z) : Z :=
  if (0 <? k)%Z then
    round_nearest_even (m / 2 ^ k)%Z
      (loc_of_shr_record
         {| shr_m := (m / 2 ^ k)%Z;
            shr_r := Z.odd (m / 2 ^ (k - 1));
            shr_s := inexact l || negb (m mod 2 ^ (k - 1) =? 0)%Z |})
  else round_nearest_even m l.

(** [at_most c x]: the Number [x] is [+0], or is positive, normalised and
    of value at most [c]. *)
Definition at_most (c : Z) (x : Number) : Prop :=
  match x with
  | S754_zero false => True
  | S754_finite false m e =>
      (2 ^ 52 <= Z.pos m < 2 ^ 53 /\ -1000 <= e <= 0 /\
       Z.pos m <= c * 2 ^ (- e))%Z
  | _ => False
  end.

(** ** Sample data *)

Definition tweet_a : Tweet :=
  mkTweet "1001" "first post" "2024-05-01T09:00:00Z".
Definition tweet_b : Tweet :=
  mkTweet "1002" "second post" "2024-05-01T10:00:00Z".
Definition tweet_c : Tweet :=
  mkTweet "1003" "third post" "2024-05-01T11:00:00Z".

Definition six_tweets : list Tweet :=
  [tweet_a; tweet_b; tweet_c;
   mkTweet "1004" "fourth post" "2024-05-01T12:00:00Z";
   mkTweet "1005" "fifth post" "2024-05-01T13:00:00Z";
   mkTweet "1006" "sixth post" "2024-05-01T14:00:00Z"].

Definition sample_group (name : string) (st : Status) : PostGroup :=
  mkGroup name ["img-" +:+ name] st None 0.

Definition three_groups : list PostGroup :=
  [sample_group "a" success; sample_group "b" success;
   sample_group "c" pending].

(** Forty groups of which twenty-three have succeeded. *)
Definition groups_23_of_40 : list PostGroup :=
  replicate 23 (sample_group "done" success) ++
  replicate 17 (sample_group "todo" pending).

(** ** Further parts of the view *)

(** The heading of the bottom panel: the History icon and the suffix
    [(履歴)] when the history is shown, the Twitter icon and [(X)]
    otherwise. *)
Inductive Icon := HistoryIcon | TwitterIcon.

Definition timeline_icon (s : Component) : Icon :=
  if isShowingHistory s then HistoryIcon else TwitterIcon.

Definition timeline_title (s : Component) : string :=
  "最新の投稿 " +:+ (if isShowingHistory s then "(履歴)" else "(X)").

(** The four conditional status labels of a group row, in source order:
    [{group.status === 'posting' && ...}] and so on. *)
Definition status_labels (st : Status) : list string :=
  (if decide (st = posting) then ["投稿中..."] else []) ++
  (if decide (st = success) then ["成功"] else []) ++
  (if decide (st = failed) then ["失敗"] else []) ++
  (if decide (st = pending) then ["待機中"] else []).

(** The colour classes of a group row: the nested conditional on the
    status. *)
Definition row_colours (st : Status) : string :=
  if decide (st = posting) then "bg-pop-cyan/10 border-pop-cyan"
  else if decide (st = success) then "bg-pop-lime/10 border-pop-lime"
  else if decide (st = failed) then "bg-pop-magenta/10 border-pop-magenta"
  else "bg-gray-50 border-gray-200".

(** The responses of a run that were rejections. *)
Fixpoint rejections (evs : list Event) : list string :=
  match evs with
  | [] => []
  | Settle _ (Rejected err) :: evs' => err :: rejections evs'
  | _ :: evs' => rejections evs'
  end.

(** * Facts about binary64 arithmetic *)

Section Binary64.
Local Open Scope Z_scope.

Lemma digits2_pos_size (p : positive) : digits2_pos p = Pos.size p.
Proof. induction p; simpl; congruence. Qed.

Lemma Zdigits2_bounds (z : Z) :
  0 < z -> 2 ^ (Zdigits2 z - 1) <= z < 2 ^ Zdigits2 z.
Proof.
  destruct z as [|p|p]; try lia. intros _. simpl Zdigits2.
  rewrite digits2_pos_size.
  pose proof (Pos.size_gt p) as Hgt. pose proof (Pos.size_le p) as Hle.
  apply Pos2Z.pos_lt_pos in Hgt. apply Pos2Z.pos_le_pos in Hle.
  rewrite Pos2Z.inj_pow in Hgt, Hle.
  replace (Z.pos (Pos.size p)) with (Z.succ (Z.pos (Pos.size p) - 1)) in Hle
    by lia.
  rewrite Z.pow_succ_r in Hle by lia.
  change (Z.pos p~0) with (2 * Z.pos p) in Hle. lia.
Qed.

Lemma Zdigits2_unique (z d : Z) :
  2 ^ (d - 1) <= z < 2 ^ d -> 1 <= d -> Zdigits2 z = d.
Proof.
  intros Hz Hd.
  assert (0 < z) as Hpos by (pose proof (Z.pow_pos_nonneg 2 (d - 1)); lia).
  pose proof (Zdigits2_bounds z Hpos) as Hb.
  assert (0 < Zdigits2 z) as Hdz by (destruct z; simpl; lia).
  destruct (Z.lt_trichotomy (Zdigits2 z) d) as [Hlt | [Heq | Hgt]]; [|done|].
  - assert (2 ^ Zdigits2 z <= 2 ^ (d - 1)) by (apply Z.pow_le_mono_r; lia).
    lia.
  - assert (2 ^ d <= 2 ^ (Zdigits2 z - 1)) by (apply Z.pow_le_mono_r; lia).
    lia.
Qed.

Lemma iter_pos_nat {A} (f : A -> A) (p : positive) (x : A) :
  SpecFloat.iter_pos f p x = Nat.iter (Pos.to_nat p) f x.
Proof.
  revert x.
  induction p as [p IH | p IH |]; intros x; cbn [SpecFloat.iter_pos].
  - rewrite !IH, Pos2Nat.inj_xI, <- Nat.iter_add, <- Nat.iter_succ_r.
    f_equal. lia.
  - rewrite !IH, Pos2Nat.inj_xO, <- Nat.iter_add. f_equal. lia.
  - reflexivity.
Qed.

(** One right shift of a non-negative mantissa. *)
Lemma shr_1_nonneg (m : Z) (r s : bool) :
  0 <= m ->
  shr_1 {| shr_m := m; shr_r := r; shr_s := s |} =
  {| shr_m := m / 2; shr_r := Z.odd m; shr_s := r || s |}.
Proof.
  intros Hm. destruct m as [|p|p]; [reflexivity| |lia].
  destruct p as [p|p|]; cbn [shr_1].
  - assert (Z.pos p~1 / 2 = Z.pos p) as ->
      by (symmetry; apply (Z.div_unique _ 2 _ 1); lia).
    reflexivity.
  - assert (Z.pos p~0 / 2 = Z.pos p) as ->
      by (symmetry; apply (Z.div_unique _ 2 _ 0); lia).
    reflexivity.
  - reflexivity.
Qed.

Lemma iter_shr_1 (k : nat) (m : Z) (r s : bool) :
  0 <= m ->
  Nat.iter (S k) shr_1 {| shr_m := m; shr_r := r; shr_s := s |} =
  {| shr_m := m / 2 ^ Z.of_nat (S k);
     shr_r := Z.odd (m / 2 ^ Z.of_nat k);
     shr_s := r || s || negb (m mod 2 ^ Z.of_nat k =? 0) |}.
Proof.
  intros Hm. induction k as [|k IH].
  - cbn [Nat.iter]. rewrite shr_1_nonneg by done.
    change (2 ^ Z.of_nat 0) with 1. change (2 ^ Z.of_nat 1) with 2.
    rewrite Z.div_1_r, Z.mod_1_r. simpl. by rewrite orb_false_r.
  - rewrite Nat.iter_succ, IH.
    assert (0 < 2 ^ Z.of_nat k) by (apply Z.pow_pos_nonneg; lia).
    assert (0 < 2 ^ Z.of_nat (S k)) by (apply Z.pow_pos_nonneg; lia).
    assert (2 ^ Z.of_nat (S k) = 2 ^ Z.of_nat k * 2) as E1
      by (rewrite Nat2Z.inj_succ, Z.pow_succ_r; lia).
    assert (2 ^ Z.of_nat (S (S k)) = 2 ^ Z.of_nat (S k) * 2) as E2
      by (rewrite (Nat2Z.inj_succ (S k)), Z.pow_succ_r; lia).
    rewrite shr_1_nonneg by (apply Z.div_pos; lia).
    f_equal.
    + rewrite E2, Z.div_div by lia. reflexivity.
    + (* the new sticky bit collects the old round and sticky bits *)
      rewrite E1, Z.rem_mul_r by lia.
      destruct (Z.eqb_spec (m mod 2 ^ Z.of_nat k) 0) as [E0|N0].
      * rewrite E0. cbn [negb]. rewrite !orb_false_r.
        rewrite Zodd_mod.
        destruct (Z.eqb_spec ((m / 2 ^ Z.of_nat k) mod 2) 1) as [Ea|Na].
        -- rewrite Ea.
           assert ((0 + 2 ^ Z.of_nat k * 1 =? 0) = false) as ->
             by (apply Z.eqb_neq; lia).
           cbn. destruct r, s; reflexivity.
        -- assert ((m / 2 ^ Z.of_nat k) mod 2 = 0) as ->
             by (pose proof (Z.mod_pos_bound (m / 2 ^ Z.of_nat k) 2); lia).
           rewrite Z.mul_0_r. cbn. destruct r, s; reflexivity.
      * cbn [negb]. rewrite !orb_true_r.
        pose proof (Z.mod_pos_bound m (2 ^ Z.of_nat k)).
        pose proof (Z.mod_pos_bound (m / 2 ^ Z.of_nat k) 2).
        assert ((m mod 2 ^ Z.of_nat k
                 + 2 ^ Z.of_nat k * ((m / 2 ^ Z.of_nat k) mod 2) =? 0)
                = false) as -> by (apply Z.eqb_neq; nia).
        cbn. destruct (Z.odd _), r, s; reflexivity.
Qed.

Lemma shr_shifted (m e k : Z) (l : location) :
  0 <= m -> 0 <= k ->
  let '(mrs, e') := shr (shr_record_of_loc m l) e k in
  e' = e + k /\ shr_m mrs = m / 2 ^ k /\
  round_nearest_even (shr_m mrs) (loc_of_shr_record mrs) =
    round_shifted m l k.
Proof.
  intros Hm Hk. unfold round_shifted.
  destruct k as [|p|p]; [| |lia].
  - cbn [shr Z.ltb Z.compare]. rewrite Z.add_0_r, Z.pow_0_r, Z.div_1_r.
    by destruct l as [|[]].
  - cbn [shr]. rewrite iter_pos_nat.
    destruct (Pos2Nat.is_succ p) as [n Hn]. rewrite Hn.
    assert (Z.pos p = Z.of_nat (S n)) as Hp by lia.
    assert (Z.pos p - 1 = Z.of_nat n) as Hp1 by lia.
    assert ((0 <? Z.pos p) = true) as -> by reflexivity.
    rewrite Hp1, Hp.
    assert (Nat.iter (S n) shr_1 (shr_record_of_loc m l) =
            {| shr_m := m / 2 ^ Z.of_nat (S n);
               shr_r := Z.odd (m / 2 ^ Z.of_nat n);
               shr_s := inexact l || negb (m mod 2 ^ Z.of_nat n =? 0) |})
      as ->.
    { destruct l as [|[]]; cbn [shr_record_of_loc inexact];
        rewrite iter_shr_1 by done; reflexivity. }
    done.
Qed.

Lemma fexp_normal (e : Z) : -1021 <= e -> fexp 53 1024 e = e - 53.
Proof. unfold fexp, emin. lia. Qed.

Lemma round_nearest_even_bounds (m : Z) (l : location) :
  m <= round_nearest_even m l <= m + 1.
Proof. destruct l as [|[]]; cbn; try lia. destruct (Z.even m); lia. Qed.

Lemma round_shifted_bounds (m : Z) (l : location) (k : Z) :
  0 <= k -> m / 2 ^ k <= round_shifted m l k <= m / 2 ^ k + 1.
Proof.
  intros Hk. unfold round_shifted. destruct (Z.ltb_spec 0 k).
  - apply round_nearest_even_bounds.
  - assert (k = 0) as -> by lia.
    rewrite Z.pow_0_r, Z.div_1_r. apply round_nearest_even_bounds.
Qed.

(** Rounding never passes a bound that is itself a multiple of the unit in
    the last place. *)
Lemma round_shifted_le (m k B : Z) :
  0 <= m -> 0 <= k -> m <= B * 2 ^ k -> round_shifted m loc_Exact k <= B.
Proof.
  intros Hm Hk HB.
  assert (0 < 2 ^ k) as Hp by (apply Z.pow_pos_nonneg; lia).
  assert (m / 2 ^ k <= B) as Hq.
  { apply Z.div_le_upper_bound; lia. }
  destruct (Z.eq_dec (m / 2 ^ k) B) as [E|N].
  - (* the quotient is the bound: the shift was exact *)
    assert (m = B * 2 ^ k) as Hmeq.
    { pose proof (Z.mul_div_le m (2 ^ k) Hp). nia. }
    unfold round_shifted. destruct (Z.ltb_spec 0 k) as [Hk0|Hk0].
    + assert (2 ^ k = 2 * 2 ^ (k - 1)) as Hsplit.
      { rewrite <- Z.pow_succ_r by lia. f_equal. lia. }
      assert (0 < 2 ^ (k - 1)) as Hp1 by (apply Z.pow_pos_nonneg; lia).
      assert (m / 2 ^ (k - 1) = 2 * B) as ->.
      { rewrite Hmeq, Hsplit.
        replace (B * (2 * 2 ^ (k - 1))) with (2 * B * 2 ^ (k - 1)) by lia.
        apply Z.div_mul. lia. }
      assert (m mod 2 ^ (k - 1) = 0) as ->.
      { rewrite Hmeq, Hsplit.
        replace (B * (2 * 2 ^ (k - 1))) with (2 * B * 2 ^ (k - 1)) by lia.
        apply Z.mod_mul. lia. }
      rewrite Z.odd_mul. cbn. lia.
    + assert (k = 0) as -> by lia. cbn. rewrite Z.pow_0_r in Hmeq. lia.
  - pose proof (round_shifted_bounds m loc_Exact k Hk). lia.
Qed.

Lemma Zdigits2_pow2 (k : Z) : 0 <= k -> Zdigits2 (2 ^ k) = k + 1.
Proof.
  intros Hk. apply Zdigits2_unique; [|lia].
  replace (k + 1 - 1) with k by lia. split; [lia|].
  apply Z.pow_lt_mono_r; lia.
Qed.

(** [binary_round_aux] on a positive mantissa of at least 53 digits, away
    from the subnormal range and from overflow: shift to 53 digits, round,
    and renormalise when the rounding carried into a 54th digit. *)
Lemma binary_round_aux_normal (m ez : Z) (l : location) :
  0 < m -> 53 <= Zdigits2 m ->
  -1074 <= ez + (Zdigits2 m - 53) -> ez + (Zdigits2 m - 53) + 1 <= 971 ->
  2 ^ 52 <= round_shifted m l (Zdigits2 m - 53) <= 2 ^ 53 /\
  binary_round_aux 53 1024 false m ez l =
    if round_shifted m l (Zdigits2 m - 53) <? 2 ^ 53
    then S754_finite false (Z.to_pos (round_shifted m l (Zdigits2 m - 53)))
           (ez + (Zdigits2 m - 53))
    else S754_finite false (Z.to_pos (2 ^ 52)) (ez + (Zdigits2 m - 53) + 1).
Proof.
  intros Hm Hd Hlo Hhi.
  set (k := Zdigits2 m - 53) in *.
  pose proof (Zdigits2_bounds m Hm) as [Hb1 Hb2].
  assert (0 < 2 ^ k) as Hp by (apply Z.pow_pos_nonneg; lia).
  assert (2 ^ (Zdigits2 m - 1) = 2 ^ 52 * 2 ^ k) as E1.
  { rewrite <- Z.pow_add_r by lia. f_equal. lia. }
  assert (2 ^ Zdigits2 m = 2 ^ 53 * 2 ^ k) as E2.
  { rewrite <- Z.pow_add_r by lia. f_equal. lia. }
  assert (2 ^ 52 <= m / 2 ^ k < 2 ^ 53) as Hq.
  { split;
      [apply Z.div_le_lower_bound; lia | apply Z.div_lt_upper_bound; lia]. }
  pose proof (round_shifted_bounds m l k ltac:(lia)) as Hr.
  split; [lia|].
  unfold binary_round_aux, shr_fexp.
  rewrite fexp_normal by lia.
  replace (Zdigits2 m + ez - 53 - ez) with k by lia.
  pose proof (shr_shifted m ez k l ltac:(lia) ltac:(lia)) as Hs.
  destruct (shr (shr_record_of_loc m l) ez k) as [mrs e'].
  destruct Hs as (-> & _ & ->).
  set (m1 := round_shifted m l k) in *.
  destruct (Z.ltb_spec m1 (2 ^ 53)) as [Hlt|Hge].
  - assert (Zdigits2 m1 = 53) as Hd1 by (apply Zdigits2_unique; lia).
    rewrite Hd1, fexp_normal by lia.
    replace (53 + (ez + k) - 53 - (ez + k)) with 0 by lia.
    cbn [shr shr_record_of_loc shr_m].
    destruct m1 as [|p|p]; try lia.
    assert ((ez + k <=? 1024 - 53) = true) as -> by (apply Z.leb_le; lia).
    reflexivity.
  - assert (m1 = 2 ^ 53) as -> by lia.
    rewrite (Zdigits2_pow2 53) by lia. rewrite fexp_normal by lia.
    replace (53 + 1 + (ez + k) - 53 - (ez + k)) with 1 by lia.
    cbn [shr shr_record_of_loc SpecFloat.iter_pos].
    rewrite shr_1_nonneg by lia.
    cbn [shr_m]. change (2 ^ 53 / 2) with (2 ^ 52).
    change (2 ^ 52) with (Z.pos (Z.to_pos (2 ^ 52))) at 1.
    cbv iota beta.
    assert ((ez + k + 1 <=? 1024 - 53) = true) as -> by (apply Z.leb_le; lia).
    reflexivity.
Qed.

Lemma pos_iter_xO (p c : positive) :
  Z.pos (Pos.iter xO p c) = Z.pos p * 2 ^ Z.pos c.
Proof.
  induction c as [|c IH] using Pos.peano_ind.
  - cbn. lia.
  - rewrite Pos.iter_succ, Pos2Z.inj_xO, IH, Pos2Z.inj_succ, Z.pow_succ_r; lia.
Qed.

(** Integers below [2^53] convert exactly, to a normalised mantissa. *)
Lemma of_Z_normal (z : Z) :
  0 < z < 2 ^ 53 ->
  2 ^ 52 <= z * 2 ^ (53 - Zdigits2 z) < 2 ^ 53 /\
  of_Z z = S754_finite false (Z.to_pos (z * 2 ^ (53 - Zdigits2 z)))
             (Zdigits2 z - 53).
Proof.
  intros [Hz0 Hz1].
  pose proof (Zdigits2_bounds z Hz0) as [Hb1 Hb2].
  assert (1 <= Zdigits2 z) as Hd0 by (destruct z; simpl; lia).
  assert (Zdigits2 z <= 53) as Hd1.
  { destruct (Z.le_gt_cases (Zdigits2 z) 53) as [|Hgt]; [done|].
    assert (2 ^ 53 <= 2 ^ (Zdigits2 z - 1)) by (apply Z.pow_le_mono_r; lia).
    lia. }
  set (d := Zdigits2 z) in *.
  assert (2 ^ 52 = 2 ^ (d - 1) * 2 ^ (53 - d)) as E1.
  { rewrite <- Z.pow_add_r by lia. f_equal. lia. }
  assert (2 ^ 53 = 2 ^ d * 2 ^ (53 - d)) as E2.
  { rewrite <- Z.pow_add_r by lia. f_equal. lia. }
  assert (0 < 2 ^ (53 - d)) as Hp by (apply Z.pow_pos_nonneg; lia).
  assert (2 ^ 52 <= z * 2 ^ (53 - d) < 2 ^ 53) as Hm by nia.
  split; [done|].
  destruct z as [|p|p]; try lia.
  unfold of_Z, binary_normalize, binary_round, prec, emax.
  change (Z.pos (digits2_pos p)) with d.
  rewrite fexp_normal by lia.
  assert (shl_align p 0 (d + 0 - 53) =
          (Z.to_pos (Z.pos p * 2 ^ (53 - d)), d - 53)) as ->.
  { unfold shl_align. destruct (d + 0 - 53 - 0) as [|c|c] eqn:Ec; try lia.
    - replace (53 - d) with 0 by lia. rewrite Z.pow_0_r, Z.mul_1_r.
      cbn [Z.to_pos]. f_equal; lia.
    - replace (53 - d) with (Z.pos c) by lia.
      rewrite <- pos_iter_xO. cbn [Z.to_pos]. f_equal; lia. }
  set (m := Z.pos p * 2 ^ (53 - d)) in *.
  assert (Z.pos (Z.to_pos m) = m) as Em by (apply Z2Pos.id; lia).
  rewrite Em.
  assert (Zdigits2 m = 53) as Hdm by (apply Zdigits2_unique; lia).
  pose proof (binary_round_aux_normal m (d - 53) loc_Exact) as [_ Hr];
    try rewrite Hdm; try lia.
  rewrite Hr, Hdm. replace (53 - 53) with 0 by lia.
  unfold round_shifted. cbn [Z.ltb Z.compare round_nearest_even].
  assert ((m <? 2 ^ 53) = true) as -> by (apply Z.ltb_lt; lia).
  f_equal. lia.
Qed.

Lemma SFdiv_normal (mx my : positive) (ex ey : Z) :
  2 ^ 52 <= Z.pos mx < 2 ^ 53 -> 2 ^ 52 <= Z.pos my < 2 ^ 53 ->
  -1000 <= ex - ey <= 1000 ->
  SFdiv 53 1024 (S754_finite false mx ex) (S754_finite false my ey) =
  binary_round_aux 53 1024 false
    (Z.pos mx * 2 ^ 53 / Z.pos my) (ex - ey - 53)
    (new_location (Z.pos my) ((Z.pos mx * 2 ^ 53) mod Z.pos my)).
Proof.
  intros Hx Hy He.
  unfold SFdiv, SFdiv_core_binary.
  assert (Zdigits2 (Z.pos mx) = 53) as -> by (apply Zdigits2_unique; lia).
  assert (Zdigits2 (Z.pos my) = 53) as -> by (apply Zdigits2_unique; lia).
  rewrite fexp_normal by lia.
  rewrite Z.min_l by lia.
  replace (ex - ey - (53 + ex - (53 + ey) - 53)) with 53 by lia.
  rewrite Z.shiftl_mul_pow2 by lia.
  unfold Z.div, Z.modulo.
  destruct (Z.div_eucl (Z.pos mx * 2 ^ 53) (Z.pos my)) as [q r].
  cbn [xorb]. f_equal. lia.
Qed.

Lemma new_location_exact (n : Z) : new_location n 0 = loc_Exact.
Proof.
  unfold new_location, new_location_even, new_location_odd.
  by destruct (Z.even n).
Qed.

Lemma SFdiv_at_most_one (mx my : positive) (ex ey : Z) :
  2 ^ 52 <= Z.pos mx < 2 ^ 53 -> 2 ^ 52 <= Z.pos my < 2 ^ 53 ->
  -100 <= ex - ey <= 0 -> (ex = ey -> Z.pos mx <= Z.pos my) ->
  at_most 1 (SFdiv 53 1024 (S754_finite false mx ex) (S754_finite false my ey)).
Proof.
  intros Hx Hy He Hle.
  rewrite SFdiv_normal by lia.
  set (q := Z.pos mx * 2 ^ 53 / Z.pos my).
  set (l := new_location _ _).
  set (d := ex - ey) in *.
  assert (2 ^ 52 <= q < 2 ^ 54) as Hq.
  { split; [apply Z.div_le_lower_bound | apply Z.div_lt_upper_bound]; lia. }
  assert (2 ^ 53 <= 2 ^ (- (d - 53))) as P53 by (apply Z.pow_le_mono_r; lia).
  assert (2 ^ 52 <= 2 ^ (- (d - 53 + 1))) as P52
    by (apply Z.pow_le_mono_r; lia).
  destruct (Z.lt_ge_cases (Z.pos mx) (Z.pos my)) as [Hlt|Hge].
  - (* the quotient of the mantissas is below one: 53 digits, no shift *)
    assert (q < 2 ^ 53) as Hq53 by (apply Z.div_lt_upper_bound; lia).
    assert (Zdigits2 q = 53) as Hd by (apply Zdigits2_unique; lia).
    pose proof (binary_round_aux_normal q (d - 53) l) as Hr.
    rewrite Hd in Hr. change (53 - 53) with 0 in Hr.
    destruct Hr as [Hm1 ->]; try lia.
    set (m1 := round_shifted q l 0) in *.
    rewrite Z.add_0_r.
    destruct (Z.ltb_spec m1 (2 ^ 53)); cbn [at_most];
      rewrite Z2Pos.id by lia; lia.
  - (* the quotient has 54 digits and is shifted by one place *)
    assert (2 ^ 53 <= q) as Hq53 by (apply Z.div_le_lower_bound; lia).
    assert (Zdigits2 q = 54) as Hd by (apply Zdigits2_unique; lia).
    pose proof (binary_round_aux_normal q (d - 53) l) as Hr.
    rewrite Hd in Hr. change (54 - 53) with 1 in Hr.
    destruct Hr as [Hm1 ->]; try lia.
    set (m1 := round_shifted q l 1) in *.
    destruct (Z.eq_dec d 0) as [Hd0|Hd0].
    + (* equal exponents: the mantissas are equal and the quotient is 1 *)
      assert (Z.pos mx = Z.pos my) as Heq by (unfold d in Hd0; lia).
      assert (q = 2 ^ 53) as Hq1.
      { unfold q. rewrite Heq, Z.mul_comm. apply Z.div_mul. lia. }
      assert (l = loc_Exact) as Hl.
      { unfold l. rewrite Heq, Z.mul_comm, Z.mod_mul by lia.
        apply new_location_exact. }
      assert (m1 <= 2 ^ 52) as Hm52.
      { unfold m1. rewrite Hl, Hq1. apply round_shifted_le; lia. }
      assert ((m1 <? 2 ^ 53) = true) as -> by (apply Z.ltb_lt; lia).
      assert (2 ^ (- (d - 53 + 1)) = 2 ^ 52) as E52 by (by rewrite Hd0).
      cbn [at_most]. rewrite Z2Pos.id by lia. lia.
    + assert (2 ^ 53 <= 2 ^ (- (d - 53 + 1))) as P53'
        by (apply Z.pow_le_mono_r; lia).
      assert (2 ^ 52 <= 2 ^ (- (d - 53 + 1 + 1))) as P52'
        by (apply Z.pow_le_mono_r; lia).
      destruct (Z.ltb_spec m1 (2 ^ 53)); cbn [at_most];
        rewrite Z2Pos.id by lia; lia.
Qed.

Lemma Zdigits2_mono (a b : Z) : 0 < a <= b -> Zdigits2 a <= Zdigits2 b.
Proof.
  intros [Ha Hab].
  pose proof (Zdigits2_bounds a Ha) as [Ha1 _].
  pose proof (Zdigits2_bounds b ltac:(lia)) as [_ Hb2].
  destruct (Z.le_gt_cases (Zdigits2 a) (Zdigits2 b)) as [|Hgt]; [done|].
  assert (0 < Zdigits2 b) by (destruct b; simpl; lia).
  assert (2 ^ Zdigits2 b <= 2 ^ (Zdigits2 a - 1))
    by (apply Z.pow_le_mono_r; lia).
  lia.
Qed.

Lemma div_at_most_one (s n : Z) :
  0 <= s <= n -> 0 < n < 2 ^ 53 -> at_most 1 (div (of_Z s) (of_Z n)).
Proof.
  intros Hs Hn.
  destruct (of_Z_normal n Hn) as [Hmy ->].
  destruct (Z.eq_dec s 0) as [->|Hs0]; [exact I|].
  destruct (of_Z_normal s ltac:(lia)) as [Hmx ->].
  pose proof (Zdigits2_mono s n ltac:(lia)) as Hd.
  assert (1 <= Zdigits2 s) by (destruct s; simpl; lia).
  pose proof (Zdigits2_bounds n ltac:(lia)) as [Hn1 _].
  assert (Zdigits2 n <= 53).
  { destruct (Z.le_gt_cases (Zdigits2 n) 53) as [|Hgt]; [done|].
    assert (2 ^ 53 <= 2 ^ (Zdigits2 n - 1)) by (apply Z.pow_le_mono_r; lia).
    lia. }
  unfold div, prec, emax. apply SFdiv_at_most_one.
  - rewrite Z2Pos.id by lia. done.
  - rewrite Z2Pos.id by lia. done.
  - lia.
  - intros E. rewrite !Z2Pos.id by lia.
    replace (Zdigits2 n) with (Zdigits2 s) by lia.
    apply Z.mul_le_mono_nonneg_r; [apply Z.pow_nonneg|]; lia.
Qed.

Lemma of_Z_not_nan (z : Z) : 0 <= z < 2 ^ 53 -> of_Z z <> S754_nan.
Proof.
  intros Hz. destruct (Z.eq_dec z 0) as [->|Hz0]; [done|].
  destruct (of_Z_normal z ltac:(lia)) as [_ ->]. done.
Qed.

Lemma of_Z_100 : of_Z 100 = S754_finite false (Z.to_pos (100 * 2 ^ 46)) (-46).
Proof. reflexivity. Qed.

Lemma of_Z_0 : of_Z 0 = S754_zero false.
Proof. reflexivity. Qed.

Lemma at_most_one_exponent (m : positive) (e : Z) :
  at_most 1 (S754_finite false m e) -> e <= -52.
Proof.
  intros (Hm & He & Hv). destruct (Z.le_gt_cases e (-52)) as [|Hgt]; [done|].
  assert (2 ^ (- e) <= 2 ^ 51) by (apply Z.pow_le_mono_r; lia). lia.
Qed.

Lemma mul_100_at_most (x : Number) :
  at_most 1 x -> at_most 100 (mul x (of_Z 100)).
Proof.
  intros Hx. rewrite of_Z_100.
  destruct x as [[]|[]| |[] m e]; try done.
  pose proof (at_most_one_exponent m e Hx) as He52.
  destruct Hx as (Hm & He & Hv). rewrite Z.mul_1_l in Hv.
  unfold mul, SFmul, prec, emax. cbn [xorb].
  rewrite Pos2Z.inj_mul, Z2Pos.id by lia.
  set (P := Z.pos m * (100 * 2 ^ 46)).
  assert (2 ^ 104 <= P < 2 ^ 106) as HP by (unfold P; lia).
  assert (0 < 2 ^ (- e)) as Hpe by (apply Z.pow_pos_nonneg; lia).
  assert (forall k, 52 <= k <= 53 -> Zdigits2 P = k + 53 ->
            at_most 100 (binary_round_aux 53 1024 false P (e + -46) loc_Exact))
    as Hcase.
  { intros k Hk Hd.
    pose proof (binary_round_aux_normal P (e + -46) loc_Exact) as Hr.
    rewrite Hd in Hr. replace (k + 53 - 53) with k in Hr by lia.
    destruct Hr as [Hm1 ->]; try lia.
    set (a := - (e + -46 + k)).
    assert (0 < a) as Ha by (unfold a; lia).
    assert (2 ^ (- e) * 2 ^ 46 = 2 ^ a * 2 ^ k) as Esplit.
    { rewrite <- !Z.pow_add_r by lia. f_equal. unfold a. lia. }
    assert (0 < 2 ^ k) as Hpk by (apply Z.pow_pos_nonneg; lia).
    assert (round_shifted P loc_Exact k <= 100 * 2 ^ a) as Hle.
    { apply round_shifted_le; [lia | lia |]. unfold P. nia. }
    assert (2 ^ a = 2 * 2 ^ (- (e + -46 + k + 1))) as Ea.
    { rewrite <- Z.pow_succ_r by (unfold a in Ha; lia). f_equal.
      unfold a. lia. }
    set (m1 := round_shifted P loc_Exact k) in *.
    destruct (Z.ltb_spec m1 (2 ^ 53)); cbn [at_most];
      rewrite Z2Pos.id by lia; fold a; lia. }
  destruct (Z.lt_ge_cases P (2 ^ 105)).
  - apply (Hcase 52); [lia|]. apply Zdigits2_unique; lia.
  - apply (Hcase 53); [lia|]. apply Zdigits2_unique; lia.
Qed.

Lemma Math_round_at_most_100 (x : Number) :
  at_most 100 x -> exists k : Z, 0 <= k <= 100 /\ Math_round x = of_Z k.
Proof.
  intros Hx. destruct x as [[]|[]| |[] m e]; try done.
  - exists 0. split; [lia | reflexivity].
  - destruct Hx as (Hm & He & Hv).
    assert (e < 0) as Hneg.
    { destruct (Z.eq_dec e 0) as [->|]; [|lia]. cbn in Hv. lia. }
    assert (0 < 2 ^ (- e)) as Hpe by (apply Z.pow_pos_nonneg; lia).
    assert (2 ^ (1 - e) = 2 * 2 ^ (- e)) as Epow.
    { rewrite <- Z.pow_succ_r by lia. f_equal. lia. }
    exists ((2 * Z.pos m + 2 ^ (- e)) / 2 ^ (1 - e)). split.
    + split.
      * apply Z.div_pos; lia.
      * apply Z.lt_succ_r, Z.div_lt_upper_bound; lia.
    + unfold Math_round.
      assert ((0 <=? e) = false) as -> by (apply Z.leb_gt; lia).
      reflexivity.
Qed.

(** The percentage of [s] successes among [n] groups is an integer between
    0 and 100. *)
Lemma percentage_range (s n : Z) :
  0 <= s <= n -> 0 < n < 2 ^ 53 ->
  exists k : Z, 0 <= k <= 100 /\
    Math_round (mul (div (of_Z s) (of_Z n)) (of_Z 100)) = of_Z k.
Proof.
  intros Hs Hn.
  by apply Math_round_at_most_100, mul_100_at_most, div_at_most_one.
Qed.

End Binary64.

(** * Facts about the component over time *)

Lemma well_formed_spec (w : World) :
  well_formed w = true <-> forall r, r ∈ inflight w -> (r < issued w)%nat.
Proof.
  unfold well_formed. rewrite forallb_forall. split.
  - intros H r Hr. apply Nat.ltb_lt, H, list_elem_of_In, elem_of_elements, Hr.
  - intros H r Hr. apply Nat.ltb_lt, H, elem_of_elements, list_elem_of_In, Hr.
Qed.

Lemma call_fetchTimeline_well_formed (w : World) :
  well_formed w = true -> well_formed (call_fetchTimeline w) = true.
Proof.
  rewrite !well_formed_spec. intros H r. cbn.
  rewrite elem_of_union, elem_of_singleton. intros [->|Hr]; [lia|].
  specialize (H r Hr). lia.
Qed.

Lemma step_well_formed (w w' : World) (ev : Event) :
  well_formed w = true -> step w ev = Some w' -> well_formed w' = true.
Proof.
  intros Hw. destruct ev as [b| |rid p]; cbn.
  - intros [= <-]. destruct (Bool.eqb b (isPosting w)).
    + exact Hw.
    + apply call_fetchTimeline_well_formed. exact Hw.
  - intros [= <-]. destruct (refresh_disabled (ui w)); [done|].
    by apply call_fetchTimeline_well_formed.
  - destruct (decide (rid ∈ inflight w)); [|done]. intros [= <-].
    apply well_formed_spec. intros r. cbn. rewrite elem_of_difference.
    intros [Hr _]. by apply well_formed_spec.
Qed.

Lemma mount_well_formed (b : bool) : well_formed (mount b) = true.
Proof. by destruct b; vm_compute. Qed.

Lemma steps_ui_settle2 (w : World) (a b : nat) (p q : Settled) :
  a ∈ inflight w -> b ∈ inflight w -> a <> b ->
  ui <$> steps w [Settle a p; Settle b q] =
  Some (exec (fetchTimeline_resume q) (exec (fetchTimeline_resume p) (ui w))).
Proof.
  intros Ha Hb Hab. cbn [steps step].
  rewrite decide_True by done.
  cbn [steps step resume_fetchTimeline run inflight].
  rewrite decide_True by set_solver. reflexivity.
Qed.

(** * The timeline resolver *)

(** The state a whole fetch leaves behind, by outcome. *)
Lemma fetchTimeline_fulfilled (s : Component) (tweets : list Tweet) :
  exec (fetchTimeline (Fulfilled tweets)) s =
  {| apiTweets := tweets; loadingTimeline := false; useFallback := false;
     console := console s |}.
Proof. by destruct tweets. Qed.

Lemma fetchTimeline_rejected (s : Component) (err : string) :
  exec (fetchTimeline (Rejected err)) s =
  {| apiTweets := apiTweets s; loadingTimeline := false; useFallback := true;
     console := (console s ++
       [mkLog LogWarn "Timeline API failed, falling back to history:" err])%list
  |}.
Proof. reflexivity. Qed.

Lemma fetchTimeline_resume_completes (p : Settled) (s : Component) :
  completion (fetchTimeline_resume p) s = Normal tt.
Proof. by destruct p as [[|t ts]|err]. Qed.

(** C3: when the fetch succeeds with zero items the component shows the
    history: loading is cleared, [isShowingHistory] is true, and
    [displayItems] is the first five entries of the history log, each with
    [createdAt] taken from [timestamp], [url] copied from [postUrl] and the
    source tag of the history branch. The same holds for the resumption
    alone, whatever state the component is in when the promise settles. *)
Theorem empty_success_shows_history (s : Component)
    (history : list PostHistoryItem) :
  loadingTimeline (exec (fetchTimeline (Fulfilled [])) s) = false /\
  apiTweets (exec (fetchTimeline (Fulfilled [])) s) = [] /\
  isShowingHistory (exec (fetchTimeline (Fulfilled [])) s) = true /\
  displayItems (exec (fetchTimeline (Fulfilled [])) s) history =
    map (fun h => {| item_id := hist_id h;
                     item_text := hist_text h;
                     item_createdAt := hist_timestamp h;
                     item_source := "history";
                     item_url := hist_postUrl h |})
        (take 5 history) /\
  loadingTimeline (exec (fetchTimeline_resume (Fulfilled [])) s) = false /\
  isShowingHistory (exec (fetchTimeline_resume (Fulfilled [])) s) = true /\
  displayItems (exec (fetchTimeline_resume (Fulfilled [])) s) history =
    map history_item (take 5 history).
Proof.
  repeat split.
  - unfold isShowingHistory. cbn. apply orb_true_r.
  - unfold displayItems. cbn. by rewrite orb_true_r.
Qed.

(** C4: when the fetch fails the component shows the history
    ([isShowingHistory] is true and [displayItems] comes from the history
    log), the failure adds exactly one console entry, at warning level,
    nothing is thrown out of [fetchTimeline], and loading is cleared (also
    when other calls were made in between); and whatever the outcome of a
    fetch, it completes normally with loading cleared and leaves no
    unhandled rejection. *)
Theorem failure_falls_back_to_history (s : Component) (err : string)
    (history : list PostHistoryItem) :
  completion (fetchTimeline (Rejected err)) s = Normal tt /\
  isShowingHistory (exec (fetchTimeline (Rejected err)) s) = true /\
  displayItems (exec (fetchTimeline (Rejected err)) s) history =
    map history_item (take 5 history) /\
  console (exec (fetchTimeline (Rejected err)) s) =
    (console s ++
       [{| log_level := LogWarn;
           log_message := "Timeline API failed, falling back to history:";
           log_detail := err |}])%list /\
  loadingTimeline (exec (fetchTimeline (Rejected err)) s) = false /\
  (forall p : Settled,
     completion (fetchTimeline p) s = Normal tt /\
     loadingTimeline (exec (fetchTimeline p) s) = false) /\
  (forall (w : World) (rid : nat),
     isShowingHistory (ui (resume_fetchTimeline rid (Rejected err) w))
       = true) /\
  (forall (w : World) (rid : nat) (p : Settled),
     unhandled (resume_fetchTimeline rid p w) = unhandled w /\
     loadingTimeline (ui (resume_fetchTimeline rid p w)) = false).
Proof.
  repeat split.
  - by destruct p as [[|t ts]|e].
  - by destruct p as [[|t ts]|e].
  - cbn. by rewrite fetchTimeline_resume_completes.
  - by destruct p as [[|t ts]|e].
Qed.

(** C6: when the fetch succeeds with one or more items the remote source is
    shown ([isShowingHistory] is false), and [displayItems] has one entry
    per returned item, in order and without slicing, carrying the item's
    [createdAt], the source tag of the remote branch (the literal ['api'])
    and the permalink built from the item's [id]; the resumption alone
    gives the same display from any state. *)
Theorem nonempty_success_shows_remote (s : Component) (tweets : list Tweet)
    (history : list PostHistoryItem) :
  tweets <> [] ->
  loadingTimeline (exec (fetchTimeline (Fulfilled tweets)) s) = false /\
  apiTweets (exec (fetchTimeline (Fulfilled tweets)) s) = tweets /\
  isShowingHistory (exec (fetchTimeline (Fulfilled tweets)) s) = false /\
  displayItems (exec (fetchTimeline (Fulfilled tweets)) s) history =
    map (fun t => {| item_id := tweet_id t;
                     item_text := tweet_text t;
                     item_createdAt := tweet_createdAt t;
                     item_source := "api";
                     item_url :=
                       "https://twitter.com/i/web/status/" +:+ tweet_id t |})
        tweets /\
  length (displayItems (exec (fetchTimeline (Fulfilled tweets)) s) history) =
    length tweets /\
  isShowingHistory (exec (fetchTimeline_resume (Fulfilled tweets)) s)
    = false /\
  displayItems (exec (fetchTimeline_resume (Fulfilled tweets)) s) history =
    map api_item tweets.
Proof.
  intros Hne. rewrite fetchTimeline_fulfilled.
  destruct tweets as [|t ts]; [done|].
  repeat split. unfold displayItems. cbn [useFallback apiTweets].
  cbn [length Nat.eqb orb]. by rewrite length_map.
Qed.

Lemma nonempty_success_shows_remote_witness :
  [tweet_a; tweet_b; tweet_c] <> [] /\
  length (displayItems
            (exec (fetchTimeline (Fulfilled [tweet_a; tweet_b; tweet_c]))
               initial) []) = 3.
Proof.
  split; [discriminate|].
  apply (nonempty_success_shows_remote initial [tweet_a; tweet_b; tweet_c] []).
  discriminate.
Defined.

(** C9: a failed fetch leaves [apiTweets] as it was: it only logs the
    warning, sets [useFallback] and clears loading. The items of an earlier
    successful fetch are therefore still stored after a later failure, and
    only hidden behind the history items. *)
Theorem failure_keeps_apiTweets (s : Component) (err : string)
    (tweets : list Tweet) (history : list PostHistoryItem) :
  apiTweets (exec (fetchTimeline_resume (Rejected err)) s) = apiTweets s /\
  exec (fetchTimeline (Rejected err)) s =
    {| apiTweets := apiTweets s;
       loadingTimeline := false;
       useFallback := true;
       console :=
         (console s ++
            [mkLog LogWarn "Timeline API failed, falling back to history:"
               err])%list
    |} /\
  apiTweets (exec (fetchTimeline (Rejected err))
               (exec (fetchTimeline (Fulfilled tweets)) s)) = tweets /\
  displayItems (exec (fetchTimeline (Rejected err))
                  (exec (fetchTimeline (Fulfilled tweets)) s)) history =
    map history_item (take 5 history).
Proof.
  repeat split. by rewrite fetchTimeline_rejected, fetchTimeline_fulfilled.
Qed.



(** C2 (evaluated at the failing input): after a fetch that returned six
    items the remote branch maps all six, so [displayItems] has six
    entries; only the history branch is cut to five. *)
Theorem displayItems_six_remote_items (history : list PostHistoryItem) :
  isShowingHistory (exec (fetchTimeline (Fulfilled six_tweets)) initial)
    = false /\
  length (displayItems (exec (fetchTimeline (Fulfilled six_tweets)) initial)
            history) = 6.
Proof. split; reflexivity. Qed.

(** The length of [displayItems] in general: the history branch is capped
    at five, the remote branch has the length of [apiTweets]. *)
Lemma displayItems_length (s : Component) (history : list PostHistoryItem) :
  length (displayItems s history) =
  if isShowingHistory s then Nat.min 5 (length history)
  else length (apiTweets s).
Proof.
  unfold displayItems, isShowingHistory.
  destruct (useFallback s || (length (apiTweets s) =? 0)%nat).
  - by rewrite length_map, length_take.
  - by rewrite length_map.
Qed.

(** C1 (counterexample): two overlapping fetches, mounted with
    [isPosting = false] and retriggered by [isPosting] turning true. The
    response of the later call (number 1) arrives first and the response of
    the earlier call (number 0) arrives last: the stale items of call 0 end
    up in [apiTweets], not the items of call 1. Nor does the last response
    alone fix the state: an empty success arriving after a failure leaves
    [useFallback] set, while the same response on its own leaves it
    clear. *)
Lemma stale_response_overwrites_newer :
  apiTweets ∘ ui <$>
    steps (mount false)
      [PostingProp true; Settle 1 (Fulfilled [tweet_b]);
       Settle 0 (Fulfilled [tweet_a])] = Some [tweet_a] /\
  apiTweets ∘ ui <$>
    steps (mount false)
      [PostingProp true; Settle 1 (Fulfilled [tweet_b])] = Some [tweet_b] /\
  useFallback ∘ ui <$>
    steps (mount false)
      [PostingProp true; Settle 0 (Rejected "429"); Settle 1 (Fulfilled [])]
    = Some true /\
  useFallback ∘ ui <$> steps (mount false) [Settle 0 (Fulfilled [])]
    = Some false.
Proof. repeat split; vm_compute; reflexivity. Qed.

(** C1 (amended): there is no staleness check; responses are applied in the
    order in which they complete. After two overlapping calls, whichever of
    the two settles first (with [p]) and last (with [q]), both resumptions
    run: loading ends cleared, [apiTweets] holds the items of the last
    response that succeeded (the earlier content if both failed), and
    [useFallback] is set exactly when the last response failed, or was an
    empty success that followed a failure. *)
Theorem overlapping_fetches_apply_in_completion_order (w : World)
    (p q : Settled) :
  ui <$> steps (call_fetchTimeline (call_fetchTimeline w))
           [Settle (issued w) p; Settle (S (issued w)) q] =
  ui <$> steps (call_fetchTimeline (call_fetchTimeline w))
           [Settle (S (issued w)) p; Settle (issued w) q] /\
  exists s' : Component,
    ui <$> steps (call_fetchTimeline (call_fetchTimeline w))
             [Settle (S (issued w)) p; Settle (issued w) q] = Some s' /\
    loadingTimeline s' = false /\
    apiTweets s' =
      match q, p with
      | Fulfilled tweets, _ => tweets
      | Rejected _, Fulfilled tweets => tweets
      | Rejected _, Rejected _ => apiTweets (ui w)
      end /\
    useFallback s' =
      match q, p with
      | Rejected _, _ => true
      | Fulfilled [], Rejected _ => true
      | Fulfilled _, _ => false
      end.
Proof.
  assert (issued w ∈ inflight (call_fetchTimeline (call_fetchTimeline w)))
    as Hold.
  { cbn. apply elem_of_union_r, elem_of_union_l. by apply elem_of_singleton. }
  assert (S (issued w) ∈ inflight (call_fetchTimeline (call_fetchTimeline w)))
    as Hnew.
  { cbn. apply elem_of_union_l. by apply elem_of_singleton. }
  rewrite !steps_ui_settle2 by (done || lia).
  split; [done|]. eexists. split; [done|].
  by destruct p as [[|tp tsp]|ep], q as [[|tq tsq]|eq].
Qed.

(** C7 (counterexample): right after mounting, the first fetch is in
    flight and loading is set; the [isPosting] prop turning true calls
    [fetchTimeline] again, and a second call is suspended next to the
    first. *)
Lemma trigger_while_loading_starts_second_fetch :
  loadingTimeline (ui (mount false)) = true /\
  size (inflight (mount false)) = 1 /\
  size ∘ inflight <$> step (mount false) (PostingProp true) = Some 2.
Proof. repeat split; vm_compute; reflexivity. Qed.

(** C7 (amended): only the refresh button is guarded. While loading is set
    a click on the button changes nothing, but [fetchTimeline] has no guard
    of its own: the call made when [isPosting] changes suspends one more
    fetch beside those already in flight, and when that call settles its
    resumption is applied to the state. *)
Theorem only_refresh_button_is_guarded (w : World) :
  well_formed w = true ->
  loadingTimeline (ui w) = true ->
  step w ClickRefresh = Some w /\
  exists w' : World,
    step w (PostingProp (negb (isPosting w))) = Some w' /\
    loadingTimeline (ui w') = true /\
    inflight w' = {[issued w]} ∪ inflight w /\
    size (inflight w') = S (size (inflight w)) /\
    forall p : Settled,
      ui <$> step w' (Settle (issued w) p) =
      Some (exec (fetchTimeline_resume p) (ui w')).
Proof.
  intros Hwf Hload. split.
  - cbn. unfold refresh_disabled. by rewrite Hload.
  - exists (call_fetchTimeline
              {| ui := ui w; isPosting := negb (isPosting w);
                 inflight := inflight w; issued := issued w;
                 unhandled := unhandled w |}).
    split.
    { cbn [step]. by destruct (isPosting w). }
    cbn [call_fetchTimeline run ui inflight issued].
    repeat split.
    + rewrite size_union, size_singleton; [done|].
      apply disjoint_singleton_l. intros Hin.
      apply well_formed_spec in Hin; [lia|done].
    + intros p. cbn [step inflight]. rewrite decide_True by set_solver.
      reflexivity.
Qed.

Lemma only_refresh_button_is_guarded_witness :
  well_formed (mount false) = true /\
  loadingTimeline (ui (mount false)) = true /\
  step (mount false) ClickRefresh = Some (mount false).
Proof.
  split; [reflexivity|]. split; [reflexivity|].
  apply (only_refresh_button_is_guarded (mount false)); reflexivity.
Defined.

(** * The progress aggregator *)

Lemma successCount_spec (groups : list PostGroup) :
  successCount groups = spec_successCount groups.
Proof.
  unfold successCount. induction groups as [|group rest IH]; [done|].
  rewrite filter_cons. cbn [spec_successCount].
  destruct (decide (status group = success)) as [E|N].
  - rewrite E. cbn [length]. by rewrite IH.
  - rewrite IH. by destruct (status group).
Qed.

Lemma successCount_le (groups : list PostGroup) :
  successCount groups <= length groups.
Proof. apply length_filter. Qed.

(** Two of three groups done is 67 percent; 29 of 200 is 14 percent, the
    product [0.145 * 100] being just below 14.5 in binary64. *)
Example progress_two_of_three : progress three_groups = of_Z 67.
Proof. vm_compute. reflexivity. Qed.

Example progress_29_of_200 :
  progress (replicate 29 (sample_group "s" success) ++
            replicate 171 (sample_group "p" pending)) = of_Z 14.
Proof. vm_compute. reflexivity. Qed.

(** C8: the empty group list renders the placeholder and nothing else does:
    any non-empty list renders the bar with the progress width, the
    caption and one row per group. *)
Theorem empty_groups_render_awaiting (groups : list PostGroup)
    (posting : bool) (currentGroupIndex : Z) :
  renderStatus [] posting currentGroupIndex = Awaiting /\
  (renderStatus groups posting currentGroupIndex = Awaiting <->
   groups = []) /\
  match groups with
  | [] => True
  | _ :: _ =>
      exists rows : list GroupRow,
        renderStatus groups posting currentGroupIndex =
          ProgressBar (progress groups) (successCount groups)
            (length groups) rows /\
        length rows = length groups
  end.
Proof.
  split; [reflexivity|]. split.
  - destruct groups; cbn; split; done.
  - destruct groups as [|group rest]; [done|].
    eexists. split; [reflexivity|]. by rewrite length_imap.
Qed.

(** * More about the display *)

Lemma isShowingHistory_cases (s : Component) :
  isShowingHistory s = false ->
  useFallback s = false /\ apiTweets s <> [].
Proof.
  unfold isShowingHistory. intros H. apply orb_false_elim in H as [Hf Hl].
  split; [done|]. intros E. by rewrite E in Hl.
Qed.

(** X1: the display never mixes the two sources: every item carries the tag of
    the branch announced by [isShowingHistory], which also selects the
    icon of the heading. *)
Theorem display_single_source (s : Component)
    (history : list PostHistoryItem) :
  Forall (fun d => item_source d =
                   if isShowingHistory s then "history" else "api")
         (displayItems s history) /\
  (timeline_icon s = HistoryIcon <->
   Forall (fun d => item_source d = "history") (displayItems s history) /\
   isShowingHistory s = true) /\
  (timeline_title s = "最新の投稿 (履歴)" <-> isShowingHistory s = true).
Proof.
  unfold displayItems, timeline_icon, timeline_title, isShowingHistory.
  destruct (useFallback s || (length (apiTweets s) =? 0)%nat) eqn:E.
  - split.
    + apply Forall_forall. intros d Hd. apply list_elem_of_In in Hd.
      apply in_map_iff in Hd as (h & <- & _). reflexivity.
    + split; [|done]. split; [|done]. intros _. split; [|done].
      apply Forall_forall. intros d Hd. apply list_elem_of_In in Hd.
      apply in_map_iff in Hd as (h & <- & _). reflexivity.
  - split.
    + apply Forall_forall. intros d Hd. apply list_elem_of_In in Hd.
      apply in_map_iff in Hd as (t & <- & _). reflexivity.
    + split; [|done]. split; [done|]. by intros [_ ?].
Qed.

(** X2: how many items are displayed: at most five, and no more than the log
    holds, from the history; as many as are stored from the remote feed.
    In every case no more than the larger of five and the number of stored
    remote items. *)
Theorem display_length_bounds (s : Component)
    (history : list PostHistoryItem) :
  length (displayItems s history) =
    (if isShowingHistory s then Nat.min 5 (length history)
     else length (apiTweets s)) /\
  length (displayItems s history) <= Nat.max 5 (length (apiTweets s)).
Proof.
  rewrite displayItems_length. split; [done|].
  destruct (isShowingHistory s); lia.
Qed.

(** X3: only the first five history entries can reach the display, and none
    does while the remote items are shown. *)
Theorem display_ignores_older_history (s : Component)
    (history : list PostHistoryItem) :
  displayItems s history =
  if isShowingHistory s then displayItems s (take 5 history)
  else displayItems s [].
Proof.
  unfold displayItems, isShowingHistory.
  destruct (useFallback s || (length (apiTweets s) =? 0)%nat); [|done].
  by rewrite take_take.
Qed.

(** X4: the React keys of the displayed items are the ids of the source
    records, in order; they are distinct whenever the ids of the stored
    tweets and of the history entries are. *)
Theorem display_keys_distinct (s : Component)
    (history : list PostHistoryItem) :
  NoDup (map tweet_id (apiTweets s)) ->
  NoDup (map hist_id history) ->
  map item_id (displayItems s history) =
    (if isShowingHistory s then take 5 (map hist_id history)
     else map tweet_id (apiTweets s)) /\
  NoDup (map item_id (displayItems s history)).
Proof.
  intros Ht Hh.
  assert (map item_id (displayItems s history) =
          if isShowingHistory s then take 5 (map hist_id history)
          else map tweet_id (apiTweets s)) as E.
  { unfold displayItems, isShowingHistory.
    destruct (useFallback s || (length (apiTweets s) =? 0)%nat).
    - by rewrite map_map, firstn_map.
    - by rewrite map_map. }
  split; [done|]. rewrite E. destruct (isShowingHistory s); [|done].
  eapply sublist_NoDup; [exact Hh|apply sublist_take].
Qed.

Lemma display_keys_distinct_witness :
  NoDup (map tweet_id (apiTweets
           (exec (fetchTimeline (Fulfilled [tweet_a; tweet_b])) initial))) /\
  NoDup (map item_id
           (displayItems
              (exec (fetchTimeline (Fulfilled [tweet_a; tweet_b])) initial)
              [])).
Proof.
  assert (NoDup (map tweet_id (apiTweets
            (exec (fetchTimeline (Fulfilled [tweet_a; tweet_b])) initial))))
    as H.
  { cbn. apply NoDup_cons_2; [|apply NoDup_singleton].
    intros Hin. apply list_elem_of_singleton in Hin. discriminate. }
  split; [exact H|].
  apply (display_keys_distinct
           (exec (fetchTimeline (Fulfilled [tweet_a; tweet_b])) initial) []).
  - exact H.
  - constructor.
Defined.

(** X5: two remote items link to the same permalink exactly when they have the
    same id. *)
Theorem permalink_injective (t1 t2 : Tweet) :
  item_url (api_item t1) = item_url (api_item t2) <->
  tweet_id t1 = tweet_id t2.
Proof.
  cbn. split; [|by intros ->].
  intros H. by simplify_eq.
Qed.

(** X6: after a fetch that no other call overlaps, what is displayed depends
    only on how the fetch ended and on the history, not on anything the
    component held before. *)
Theorem display_after_fetch_forgets_past (s1 s2 : Component) (p : Settled)
    (history : list PostHistoryItem) :
  displayItems (exec (fetchTimeline p) s1) history =
    displayItems (exec (fetchTimeline p) s2) history /\
  isShowingHistory (exec (fetchTimeline p) s1) =
    isShowingHistory (exec (fetchTimeline p) s2) /\
  renderTimeline (exec (fetchTimeline p) s1) history =
    renderTimeline (exec (fetchTimeline p) s2) history.
Proof. by destruct p as [[|t ts]|err]. Qed.

(** X7: the bottom panel: the spinner is shown exactly while loading is set;
    the "no posts" placeholder exactly when loading is clear, the history
    is the source and the history log is empty; a list that is shown is
    never empty. In particular the remote branch never yields the
    placeholder. *)
Theorem renderTimeline_cases (s : Component)
    (history : list PostHistoryItem) :
  (renderTimeline s history = Spinner <-> loadingTimeline s = true) /\
  (renderTimeline s history = NoPosts <->
   loadingTimeline s = false /\ isShowingHistory s = true /\ history = []) /\
  match renderTimeline s history with
  | Posts items => items = displayItems s history /\ items <> []
  | _ => True
  end.
Proof.
  unfold renderTimeline.
  destruct (loadingTimeline s).
  { split; [done|]. split; [|done]. split; [done|]. by intros [? _]. }
  rewrite displayItems_length.
  destruct (isShowingHistory s) eqn:E.
  - destruct history as [|h hs].
    + cbn. split; [done|]. split; [|done]. split; [by intros _|done].
    + assert ((Nat.min 5 (length (h :: hs)) =? 0)%nat = false) as ->.
      { apply Nat.eqb_neq. cbn [length]. lia. }
      split; [done|]. split; [split; [done|by intros (_ & _ & ?)]|].
      split; [done|]. intros Hnil.
      apply (f_equal length) in Hnil. rewrite displayItems_length, E in Hnil.
      cbn [length] in Hnil. lia.
  - destruct (isShowingHistory_cases s E) as [_ Hne].
    destruct (apiTweets s) as [|t ts] eqn:Et; [done|].
    cbn [length Nat.eqb].
    split; [done|]. split; [split; [done|by intros (_ & ? & _)]|].
    split; [done|]. intros Hnil.
    apply (f_equal length) in Hnil. rewrite displayItems_length, E, Et in Hnil.
    done.
Qed.

(** * More about runs of the component *)

(** What a single step does to the console and to the unhandled
    rejections. *)
Lemma step_console (w w' : World) (ev : Event) :
  step w ev = Some w' ->
  console (ui w') =
    (console (ui w) ++
     map (mkLog LogWarn "Timeline API failed, falling back to history:")
         (rejections [ev]))%list /\
  unhandled w' = unhandled w.
Proof.
  destruct ev as [b| |rid p]; cbn [step].
  - intros [= <-]. destruct (Bool.eqb b (isPosting w)); cbn;
      by rewrite app_nil_r.
  - intros [= <-]. destruct (refresh_disabled (ui w)); cbn;
      by rewrite app_nil_r.
  - destruct (decide (rid ∈ inflight w)); [|done]. intros [= <-].
    destruct p as [[|t ts]|err]; cbn; by rewrite ?app_nil_r.
Qed.

Lemma rejections_cons (ev : Event) (evs : list Event) :
  rejections (ev :: evs) = (rejections [ev] ++ rejections evs)%list.
Proof. by destruct ev as [b| |rid [tweets|err]]. Qed.

(** X8: over any run from the mounted component, no rejection ever escapes a
    call, and the console holds exactly one warning per rejected response,
    in the order of the rejections, and nothing else. *)
Theorem run_logs_one_warning_per_rejection (b : bool) (evs : list Event)
    (w : World) :
  steps (mount b) evs = Some w ->
  unhandled w = [] /\
  console (ui w) =
    map (mkLog LogWarn "Timeline API failed, falling back to history:")
        (rejections evs).
Proof.
  assert (forall evs w0 w,
    steps w0 evs = Some w ->
    unhandled w = unhandled w0 /\
    console (ui w) =
      (console (ui w0) ++
       map (mkLog LogWarn "Timeline API failed, falling back to history:")
           (rejections evs))%list) as Hgen.
  { clear. induction evs as [|ev evs IH]; intros w0 w.
    - intros [= <-]. cbn. by rewrite app_nil_r.
    - cbn [steps]. destruct (step w0 ev) as [w1|] eqn:E1; [|done].
      intros Hrest. apply step_console in E1 as [Hc Hu].
      apply IH in Hrest as [Hu' Hc'].
      split; [congruence|].
      rewrite Hc', Hc, (rejections_cons ev evs), map_app.
      by rewrite <- app_assoc. }
  intros Hrun. apply Hgen in Hrun as [Hu Hc]. split; [done|].
  rewrite Hc. by destruct b.
Qed.

Lemma run_logs_one_warning_per_rejection_witness :
  steps (mount false) [Settle 0 (Rejected "429")] =
    Some (resume_fetchTimeline 0 (Rejected "429") (mount false)) /\
  console (ui (resume_fetchTimeline 0 (Rejected "429") (mount false))) =
    [mkLog LogWarn "Timeline API failed, falling back to history:" "429"].
Proof.
  assert (steps (mount false) [Settle 0 (Rejected "429")] =
          Some (resume_fetchTimeline 0 (Rejected "429") (mount false))) as H
    by (vm_compute; reflexivity).
  split; [exact H|].
  apply (run_logs_one_warning_per_rejection false
           [Settle 0 (Rejected "429")] _ H).
Defined.

(** X9: the spinner is only ever shown while some call is suspended: over any
    run from the mounted component, once no call is in flight loading is
    clear (and the refresh button enabled). *)
Theorem run_idle_means_not_loading (b : bool) (evs : list Event)
    (w : World) :
  steps (mount b) evs = Some w ->
  inflight w = ∅ ->
  loadingTimeline (ui w) = false /\ refresh_disabled (ui w) = false.
Proof.
  assert (forall w0 ev w1,
    step w0 ev = Some w1 ->
    (inflight w0 = ∅ -> loadingTimeline (ui w0) = false) ->
    inflight w1 = ∅ -> loadingTimeline (ui w1) = false) as Hstep.
  { intros w0 ev w1. destruct ev as [b'| |rid p]; cbn [step].
    - intros [= <-]. destruct (Bool.eqb b' (isPosting w0)); cbn; [done|].
      intros _ Hempty. exfalso.
      apply (not_elem_of_empty (C := gset nat) (issued w0)).
      rewrite <- Hempty. apply elem_of_union_l. by apply elem_of_singleton.
    - intros [= <-]. unfold refresh_disabled.
      destruct (loadingTimeline (ui w0)) eqn:El; cbn;
        [intros H1 H2; by specialize (H1 H2)|].
      intros _ Hempty. exfalso.
      apply (not_elem_of_empty (C := gset nat) (issued w0)).
      rewrite <- Hempty. apply elem_of_union_l. by apply elem_of_singleton.
    - destruct (decide (rid ∈ inflight w0)); [|done]. intros [= <-] _ _.
      by destruct p as [[|t ts]|err]. }
  assert (forall evs w0 w,
    steps w0 evs = Some w ->
    (inflight w0 = ∅ -> loadingTimeline (ui w0) = false) ->
    inflight w = ∅ -> loadingTimeline (ui w) = false) as Hgen.
  { clear -Hstep. induction evs as [|ev evs IH]; intros w0 w.
    - by intros [= <-].
    - cbn [steps]. destruct (step w0 ev) as [w1|] eqn:E1; [|done].
      intros Hrest Hinv. eapply IH; [exact Hrest|].
      eapply Hstep; eassumption. }
  intros Hrun Hempty.
  assert (loadingTimeline (ui w) = false) as Hl.
  { eapply Hgen; [exact Hrun| |exact Hempty].
    intros Hm. exfalso.
    apply (not_elem_of_empty (C := gset nat) 0).
    rewrite <- Hm. cbn. apply elem_of_union_l. by apply elem_of_singleton. }
  by unfold refresh_disabled.
Qed.

Lemma run_idle_means_not_loading_witness :
  steps (mount false) [Settle 0 (Rejected "429")] =
    Some (resume_fetchTimeline 0 (Rejected "429") (mount false)) /\
  inflight (resume_fetchTimeline 0 (Rejected "429") (mount false)) = ∅ /\
  loadingTimeline
    (ui (resume_fetchTimeline 0 (Rejected "429") (mount false))) = false.
Proof.
  assert (steps (mount false) [Settle 0 (Rejected "429")] =
          Some (resume_fetchTimeline 0 (Rejected "429") (mount false))) as H
    by (vm_compute; reflexivity).
  assert (inflight (resume_fetchTimeline 0 (Rejected "429") (mount false))
          = ∅) as He by (vm_compute; reflexivity).
  split; [exact H|]. split; [exact He|].
  apply (run_idle_means_not_loading false [Settle 0 (Rejected "429")] _ H He).
Defined.

(** X10: the converse fails: with two calls in flight, the first response to
    arrive clears loading and enables the refresh button although the
    other call is still suspended, so that a click then starts a third
    call beside it. *)
Theorem first_response_clears_loading (w : World) (p : Settled) :
  exists w' : World,
    step (call_fetchTimeline (call_fetchTimeline w)) (Settle (issued w) p)
      = Some w' /\
    loadingTimeline (ui w') = false /\
    refresh_disabled (ui w') = false /\
    S (issued w) ∈ inflight w' /\
    step w' ClickRefresh = Some (call_fetchTimeline w').
Proof.
  eexists. split.
  { cbn [step]. rewrite decide_True; [reflexivity|].
    cbn. apply elem_of_union_r, elem_of_union_l. by apply elem_of_singleton. }
  assert (loadingTimeline
            (ui (resume_fetchTimeline (issued w) p
                   (call_fetchTimeline (call_fetchTimeline w)))) = false)
    as Hl by (by destruct p as [[|t ts]|err]).
  split; [done|]. split; [done|]. split.
  - cbn. apply elem_of_difference. split.
    + apply elem_of_union_l. by apply elem_of_singleton.
    + rewrite elem_of_singleton. lia.
  - cbn [step]. unfold refresh_disabled. by rewrite Hl.
Qed.

(** X11: the stored remote items are never made up: over any run from the
    mounted component, [apiTweets] is either still the initial empty list
    or the payload of one of the fulfilled responses of the run. *)
Theorem run_apiTweets_come_from_a_response (b : bool) (evs : list Event)
    (w : World) :
  steps (mount b) evs = Some w ->
  apiTweets (ui w) = [] \/
  exists rid : nat, In (Settle rid (Fulfilled (apiTweets (ui w)))) evs.
Proof.
  assert (forall evs w0 w,
    steps w0 evs = Some w ->
    apiTweets (ui w) = apiTweets (ui w0) \/
    exists rid : nat, In (Settle rid (Fulfilled (apiTweets (ui w)))) evs)
    as Hgen.
  { clear. induction evs as [|ev evs IH]; intros w0 w.
    - intros [= <-]. by left.
    - cbn [steps]. destruct (step w0 ev) as [w1|] eqn:E1; [|done].
      intros Hrest. apply IH in Hrest as [Hsame | (rid & Hin)].
      + rewrite Hsame. clear Hsame.
        destruct ev as [b'| |rid p]; cbn [step] in E1.
        * injection E1 as <-. left.
          by destruct (Bool.eqb b' (isPosting w0)).
        * injection E1 as <-. left.
          by destruct (refresh_disabled (ui w0)).
        * destruct (decide (rid ∈ inflight w0)); [|done].
          injection E1 as <-.
          destruct p as [tweets|err].
          -- right. exists rid. left.
             by destruct tweets.
          -- by left.
      + right. exists rid. by right. }
  intros Hrun. apply Hgen in Hrun as [Hsame | Hex]; [|by right].
  left. rewrite Hsame. by destruct b.
Qed.

Lemma run_apiTweets_come_from_a_response_witness :
  steps (mount false) [Settle 0 (Fulfilled [tweet_a])] =
    Some (resume_fetchTimeline 0 (Fulfilled [tweet_a]) (mount false)) /\
  (apiTweets (ui (resume_fetchTimeline 0 (Fulfilled [tweet_a])
                    (mount false))) = [] \/
   exists rid : nat,
     In (Settle rid
           (Fulfilled
              (apiTweets (ui (resume_fetchTimeline 0 (Fulfilled [tweet_a])
                                (mount false))))))
        [Settle 0 (Fulfilled [tweet_a])]).
Proof.
  assert (steps (mount false) [Settle 0 (Fulfilled [tweet_a])] =
          Some (resume_fetchTimeline 0 (Fulfilled [tweet_a]) (mount false)))
    as H by (vm_compute; reflexivity).
  split; [exact H|].
  apply (run_apiTweets_come_from_a_response false
           [Settle 0 (Fulfilled [tweet_a])] _ H).
Defined.

(** * Accuracy of the percentage *)

Section Accuracy.
Local Open Scope Z_scope.

(** The quotient of two normalised Numbers, when it is at most one: the
    result is normalised and within two units in the last place of the
    exact quotient, stated without division: with [D] the difference of
    the operands' exponent gap and the result exponent. *)
Lemma SFdiv_close (mx my : positive) (ex ey : Z) :
  2 ^ 52 <= Z.pos mx < 2 ^ 53 -> 2 ^ 52 <= Z.pos my < 2 ^ 53 ->
  -100 <= ex - ey <= 0 ->
  exists (m : positive) (e : Z),
    SFdiv 53 1024 (S754_finite false mx ex) (S754_finite false my ey) =
      S754_finite false m e /\
    2 ^ 52 <= Z.pos m < 2 ^ 53 /\
    51 <= ex - ey - e <= 53 /\
    (Z.pos m - 2) * Z.pos my < Z.pos mx * 2 ^ (ex - ey - e)
      < (Z.pos m + 2) * Z.pos my.
Proof.
  intros Hx Hy He.
  rewrite SFdiv_normal by lia.
  set (q := Z.pos mx * 2 ^ 53 / Z.pos my).
  set (l := new_location _ _).
  set (d := ex - ey) in *.
  assert (2 ^ 52 <= q < 2 ^ 54) as Hq.
  { split;
      [apply Z.div_le_lower_bound; lia | apply Z.div_lt_upper_bound; lia]. }
  assert (q * Z.pos my <= Z.pos mx * 2 ^ 53 < (q + 1) * Z.pos my) as Hdiv.
  { unfold q. pose proof (Z.mul_div_le (Z.pos mx * 2 ^ 53) (Z.pos my)).
    pose proof (Z.mul_succ_div_gt (Z.pos mx * 2 ^ 53) (Z.pos my)). lia. }
  assert (forall k, 0 <= k <= 1 -> Zdigits2 q = 53 + k ->
    (round_shifted q l k - 2) * Z.pos my < Z.pos mx * 2 ^ (53 - k)
      < (round_shifted q l k + 2) * Z.pos my) as Hval.
  { intros k Hk _.
    pose proof (round_shifted_bounds q l k ltac:(lia)) as Hr.
    destruct (Z.eq_dec k 0) as [->|Hk1].
    - rewrite Z.pow_0_r, Z.div_1_r in Hr. change (53 - 0) with 53. nia.
    - assert (k = 1) as -> by lia. change (2 ^ 1) with 2 in Hr.
      change (53 - 1) with 52.
      pose proof (Z.mul_div_le q 2). pose proof (Z.mul_succ_div_gt q 2).
      assert (Z.pos mx * 2 ^ 53 = 2 * (Z.pos mx * 2 ^ 52)) as E by lia.
      nia. }
  assert (forall k, 0 <= k <= 1 -> Zdigits2 q = 53 + k ->
    exists (m : positive) (e : Z),
      binary_round_aux 53 1024 false q (d - 53) l = S754_finite false m e /\
      2 ^ 52 <= Z.pos m < 2 ^ 53 /\ 51 <= d - e <= 53 /\
      (Z.pos m - 2) * Z.pos my < Z.pos mx * 2 ^ (d - e)
        < (Z.pos m + 2) * Z.pos my) as Hcase.
  { intros k Hk Hd. specialize (Hval k Hk Hd).
    pose proof (binary_round_aux_normal q (d - 53) l) as Hr.
    rewrite Hd in Hr. replace (53 + k - 53) with k in Hr by lia.
    destruct Hr as [Hm1 ->]; try lia.
    set (m1 := round_shifted q l k) in *.
    destruct (Z.ltb_spec m1 (2 ^ 53)).
    - exists (Z.to_pos m1), (d - 53 + k). rewrite Z2Pos.id by lia.
      replace (d - (d - 53 + k)) with (53 - k) by lia.
      repeat split; try lia.
    - exists (Z.to_pos (2 ^ 52)), (d - 53 + k + 1).
      rewrite Z2Pos.id by lia.
      replace (d - (d - 53 + k + 1)) with (52 - k) by lia.
      assert (m1 = 2 ^ 53) as Em by lia. rewrite Em in Hval.
      assert (2 ^ (53 - k) = 2 * 2 ^ (52 - k)) as E.
      { rewrite <- Z.pow_succ_r by lia. f_equal. lia. }
      repeat split; try lia. }
  destruct (Z.lt_ge_cases q (2 ^ 53)).
  - apply (Hcase 0); [lia|]. apply Zdigits2_unique; lia.
  - apply (Hcase 1); [lia|]. apply Zdigits2_unique; lia.
Qed.

(** The product by one hundred of a normalised Number of value at most
    one is normalised and within one unit in the last place of the exact
    product; [c] is the exponent gain. *)
Lemma mul_100_close (m : positive) (e : Z) :
  2 ^ 52 <= Z.pos m < 2 ^ 53 -> -1000 <= e <= 0 ->
  exists (m2 : positive) (c : Z),
    mul (S754_finite false m e) (of_Z 100) = S754_finite false m2 (e + c) /\
    2 ^ 52 <= Z.pos m2 < 2 ^ 53 /\
    6 <= c <= 8 /\
    - 2 ^ c <= Z.pos m2 * 2 ^ c - 100 * Z.pos m <= 2 ^ c.
Proof.
  intros Hm He. rewrite of_Z_100.
  unfold mul, SFmul, prec, emax. cbn [xorb].
  rewrite Pos2Z.inj_mul, Z2Pos.id by lia.
  set (P := Z.pos m * (100 * 2 ^ 46)).
  assert (2 ^ 104 <= P < 2 ^ 106) as HP by (unfold P; lia).
  assert (forall k, 52 <= k <= 53 -> Zdigits2 P = k + 53 ->
    exists (m2 : positive) (c : Z),
      binary_round_aux 53 1024 false P (e + -46) loc_Exact =
        S754_finite false m2 (e + c) /\
      2 ^ 52 <= Z.pos m2 < 2 ^ 53 /\ 6 <= c <= 8 /\
      - 2 ^ c <= Z.pos m2 * 2 ^ c - 100 * Z.pos m <= 2 ^ c) as Hcase.
  { intros k Hk Hd.
    pose proof (binary_round_aux_normal P (e + -46) loc_Exact) as Hr.
    rewrite Hd in Hr. replace (k + 53 - 53) with k in Hr by lia.
    destruct Hr as [Hm1 ->]; try lia.
    pose proof (round_shifted_bounds P loc_Exact k ltac:(lia)) as Hb.
    set (m1 := round_shifted P loc_Exact k) in *.
    assert (0 < 2 ^ k) as Hpk by (apply Z.pow_pos_nonneg; lia).
    pose proof (Z.mul_div_le P (2 ^ k) Hpk) as Hlo.
    pose proof (Z.mul_succ_div_gt P (2 ^ k) Hpk) as Hhi.
    assert (2 ^ k = 2 ^ 46 * 2 ^ (k - 46)) as Ek.
    { rewrite <- Z.pow_add_r by lia. f_equal. lia. }
    assert (0 < 2 ^ (k - 46)) as Hpc by (apply Z.pow_pos_nonneg; lia).
    assert (- 2 ^ (k - 46) <= m1 * 2 ^ (k - 46) - 100 * Z.pos m
            <= 2 ^ (k - 46)) as Hclose.
    { set (f := P / 2 ^ k) in *. clearbody f m1.
      unfold P in Hlo, Hhi. rewrite Ek in Hlo, Hhi.
      set (C := 2 ^ (k - 46)) in *.
      assert (f * C <= m1 * C <= (f + 1) * C) as Hmul by nia.
      lia. }
    destruct (Z.ltb_spec m1 (2 ^ 53)).
    - exists (Z.to_pos m1), (k - 46). rewrite Z2Pos.id by lia.
      replace (e + (k - 46)) with (e + -46 + k) by lia.
      repeat split; try lia.
    - exists (Z.to_pos (2 ^ 52)), (k - 46 + 1). rewrite Z2Pos.id by lia.
      replace (e + (k - 46 + 1)) with (e + -46 + k + 1) by lia.
      assert (m1 = 2 ^ 53) as Em by lia. rewrite Em in Hclose.
      assert (2 ^ (k - 46 + 1) = 2 * 2 ^ (k - 46)) as E.
      { rewrite <- Z.pow_succ_r by lia. f_equal. }
      repeat split; try lia. }
  destruct (Z.lt_ge_cases P (2 ^ 105)).
  - apply (Hcase 52); [lia|]. apply Zdigits2_unique; lia.
  - apply (Hcase 53); [lia|]. apply Zdigits2_unique; lia.
Qed.

(** [Math.round] of a positive Number with a negative exponent is the
    integer [k] with [k - 1/2 <= x < k + 1/2]. *)
Lemma Math_round_half (m : positive) (e : Z) :
  e < 0 ->
  exists k : Z,
    Math_round (S754_finite false m e) = of_Z k /\
    (2 * k - 1) * 2 ^ (- e) <= 2 * Z.pos m < (2 * k + 1) * 2 ^ (- e).
Proof.
  intros He.
  assert (0 < 2 ^ (- e)) as Hpe by (apply Z.pow_pos_nonneg; lia).
  assert (2 ^ (1 - e) = 2 * 2 ^ (- e)) as Epow.
  { rewrite <- Z.pow_succ_r by lia. f_equal. lia. }
  exists ((2 * Z.pos m + 2 ^ (- e)) / 2 ^ (1 - e)). split.
  - unfold Math_round.
    assert ((0 <=? e) = false) as -> by (apply Z.leb_gt; lia).
    reflexivity.
  - pose proof (Z.mul_div_le (2 * Z.pos m + 2 ^ (- e)) (2 ^ (1 - e))).
    pose proof (Z.mul_succ_div_gt (2 * Z.pos m + 2 ^ (- e)) (2 ^ (1 - e))).
    lia.
Qed.

(** The integer arithmetic behind the accuracy of the percentage: [W] and
    [V] are the weights of the last places of the quotient and of the
    product. *)
Lemma nearest_from_bounds (s n m m2 k V W C : Z) :
  0 < n < 2 ^ 32 -> 0 <= s -> 2 ^ 51 <= W -> 0 < V -> 0 < C <= 256 ->
  W = V * C ->
  (m - 2) * n < s * W < (m + 2) * n ->
  - C <= m2 * C - 100 * m <= C ->
  (2 * k - 1) * V <= 2 * m2 < (2 * k + 1) * V ->
  (2 * k - 1) * n <= 200 * s <= (2 * k + 1) * n.
Proof.
  intros Hn Hs HW HV HC EW H1 H2 H3.
  assert (2 * (m2 * C) * n <= 2 * (100 * m + C) * n) as Ha by nia.
  assert (2 * (100 * m - C) * n <= 2 * (m2 * C) * n) as Hb by nia.
  assert ((2 * k - 1) * V * C * n <= 2 * m2 * C * n) as Hc.
  { apply Z.mul_le_mono_nonneg_r; [lia|].
    apply Z.mul_le_mono_nonneg_r; lia. }
  assert (2 * m2 * C * n < (2 * k + 1) * V * C * n) as Hd.
  { apply Z.mul_lt_mono_pos_r; [lia|].
    apply Z.mul_lt_mono_pos_r; lia. }
  assert (912 * n < W) as Hbig by lia.
  split.
  - destruct (Z.le_gt_cases ((2 * k - 1) * n) (200 * s)) as [|Hgt]; [done|].
    exfalso.
    assert ((200 * s + 1) * W <= (2 * k - 1) * n * W) as He
      by (apply Z.mul_le_mono_nonneg_r; lia).
    rewrite EW in He, H1, Hbig. nia.
  - destruct (Z.le_gt_cases (200 * s) ((2 * k + 1) * n)) as [|Hgt]; [done|].
    exfalso.
    assert (((2 * k + 1) * n + 1) * W <= 200 * s * W) as He
      by (apply Z.mul_le_mono_nonneg_r; lia).
    rewrite EW in He, H1, Hbig. nia.
Qed.

(** The percentage of [s] successes among [n] groups is an integer nearest
    to [100 * s / n]. *)
Lemma percentage_nearest (s n : Z) :
  0 <= s <= n -> 0 < n < 2 ^ 32 ->
  exists k : Z,
    Math_round (mul (div (of_Z s) (of_Z n)) (of_Z 100)) = of_Z k /\
    (2 * k - 1) * n <= 200 * s <= (2 * k + 1) * n.
Proof.
  intros Hs Hn.
  destruct (Z.eq_dec s 0) as [->|Hs0].
  { exists 0. split; [|lia].
    destruct (of_Z_normal n ltac:(lia)) as [_ ->]. reflexivity. }
  destruct (of_Z_normal n ltac:(lia)) as [Hmy En].
  destruct (of_Z_normal s ltac:(lia)) as [Hmx Es].
  pose proof (Zdigits2_mono s n ltac:(lia)) as Hd.
  assert (1 <= Zdigits2 s) as Hds by (destruct s; simpl; lia).
  pose proof (Zdigits2_bounds n ltac:(lia)) as [Hn1 _].
  assert (Zdigits2 n <= 32) as Hdn.
  { destruct (Z.le_gt_cases (Zdigits2 n) 32) as [|Hgt]; [done|].
    assert (2 ^ 32 <= 2 ^ (Zdigits2 n - 1)) by (apply Z.pow_le_mono_r; lia).
    lia. }
  set (ds := Zdigits2 s) in *. set (dn := Zdigits2 n) in *.
  rewrite Es, En. unfold div, prec, emax.
  destruct (SFdiv_close (Z.to_pos (s * 2 ^ (53 - ds)))
              (Z.to_pos (n * 2 ^ (53 - dn))) (ds - 53) (dn - 53))
    as (m & e & -> & Hm & HD & R1);
    rewrite ?Z2Pos.id by lia; try lia.
  rewrite !Z2Pos.id in R1 by lia.
  set (D := ds - 53 - (dn - 53) - e) in *.
  destruct (mul_100_close m e Hm ltac:(lia)) as (m2 & c & -> & Hm2 & Hc & R2).
  destruct (Math_round_half m2 (e + c) ltac:(lia)) as (k & -> & R3).
  exists k. split; [done|].
  assert (0 < 2 ^ (53 - dn)) as Hpn by (apply Z.pow_pos_nonneg; lia).
  assert (2 ^ (53 - ds) * 2 ^ D = 2 ^ (- e) * 2 ^ (53 - dn)) as Eexp.
  { rewrite <- !Z.pow_add_r by lia. f_equal. lia. }
  assert ((Z.pos m - 2) * n < s * 2 ^ (- e) < (Z.pos m + 2) * n) as R1'.
  { split; apply (Z.mul_lt_mono_pos_r (2 ^ (53 - dn))); lia || nia. }
  assert (2 ^ (- e) = 2 ^ (- (e + c)) * 2 ^ c) as EW.
  { rewrite <- Z.pow_add_r by lia. f_equal. lia. }
  assert (2 ^ 51 <= 2 ^ (- e)) as HW by (apply Z.pow_le_mono_r; lia).
  assert (0 < 2 ^ (- (e + c))) as HV by (apply Z.pow_pos_nonneg; lia).
  assert (0 < 2 ^ c <= 256) as HC.
  { split; [apply Z.pow_pos_nonneg; lia|].
    change 256 with (2 ^ 8). apply Z.pow_le_mono_r; lia. }
  apply (nearest_from_bounds s n (Z.pos m) (Z.pos m2) k
           (2 ^ (- (e + c))) (2 ^ (- e)) (2 ^ c)); (lia || done).
Qed.

Lemma of_Z_inj (a b : Z) :
  0 <= a < 2 ^ 53 -> 0 <= b < 2 ^ 53 -> of_Z a = of_Z b -> a = b.
Proof.
  intros Ha Hb.
  destruct (Z.eq_dec a 0) as [->|Ha0], (Z.eq_dec b 0) as [->|Hb0]; [done| | |].
  - destruct (of_Z_normal b ltac:(lia)) as [_ ->]. done.
  - destruct (of_Z_normal a ltac:(lia)) as [_ ->]. done.
  - destruct (of_Z_normal a ltac:(lia)) as [Hma ->].
    destruct (of_Z_normal b ltac:(lia)) as [Hmb ->].
    intros [= Hm He].
    assert (Zdigits2 a = Zdigits2 b) as Ed by lia.
    rewrite Ed in Hm, Hma. apply Z2Pos.inj in Hm; [|lia..].
    assert (0 < 2 ^ (53 - Zdigits2 b)).
    { apply Z.pow_pos_nonneg; [lia|].
      destruct (Z.le_gt_cases 0 (53 - Zdigits2 b)) as [|Hneg]; [done|].
      rewrite (Z.pow_neg_r 2 (53 - Zdigits2 b)) in Hmb by lia. lia. }
    nia.
Qed.

End Accuracy.

Lemma progress_nearest (groups : list PostGroup) :
  (Z.of_nat (length groups) < 2 ^ 32)%Z ->
  exists k : Z,
    progress groups = of_Z k /\
    ((2 * k - 1) * Z.of_nat (Nat.max (length groups) 1)
       <= 200 * Z.of_nat (successCount groups)
       <= (2 * k + 1) * Z.of_nat (Nat.max (length groups) 1))%Z.
Proof.
  intros Hlen. unfold progress, of_nat. apply percentage_nearest.
  - pose proof (successCount_le groups). lia.
  - lia.
Qed.

(** The specification's percentage as an integer quotient. *)
Lemma spec_percentage_floor (successes total : nat) :
  spec_percentage successes total =
  ((200 * Z.of_nat successes + Z.of_nat (Nat.max total 1))
   / (2 * Z.of_nat (Nat.max total 1)))%Z.
Proof.
  unfold spec_percentage.
  destruct (Z.of_nat (Nat.max total 1)) as [|n|n] eqn:E; try lia.
  unfold Qfloor. cbn. f_equal; lia.
Qed.

(** C5 (counterexample): with 23 of 40 groups done the exact ratio is 57.5,
    which rounds to 58, while the code yields 57: the binary64 quotient
    [23 / 40] times [100] is just below 57.5. *)
Lemma progress_23_of_40_below_exact_rounding :
  spec_successCount groups_23_of_40 = 23 /\
  length groups_23_of_40 = 40 /\
  spec_percentage 23 40 = 58%Z /\
  progress groups_23_of_40 = of_Z 57 /\
  progress groups_23_of_40 <>
    of_Z (spec_percentage (spec_successCount groups_23_of_40)
            (length groups_23_of_40)).
Proof. repeat split; vm_compute; (reflexivity || discriminate). Qed.

(** C5 (amended): for a group array (fewer than [2^32] elements, as every
    array has) the percentage is an integer between 0 and 100, never NaN,
    and 0 for the empty array. It equals the exact
    round(successCount / max(total, 1) × 100), a half rounded up, except
    possibly when the exact ratio lies half-way between two integers: there
    the binary64 roundings of the quotient and of the product may leave it
    at the lower of the two. *)
Theorem progress_percentage (groups : list PostGroup) :
  (Z.of_nat (length groups) < 2 ^ 32)%Z ->
  (exists k : Z,
     progress groups = of_Z k /\
     (0 <= k <= 100)%Z /\
     (k = spec_percentage (spec_successCount groups) (length groups) \/
      (k = spec_percentage (spec_successCount groups) (length groups) - 1 /\
       200 * Z.of_nat (spec_successCount groups) =
         (2 * k + 1) * Z.of_nat (Nat.max (length groups) 1))%Z)) /\
  progress groups <> S754_nan /\
  progress [] = of_Z 0.
Proof.
  intros Hlen.
  destruct (progress_nearest groups Hlen) as (k & Ek & Hk).
  pose proof (successCount_le groups) as Hle.
  rewrite successCount_spec in Hk, Hle.
  assert (0 <= k <= 100)%Z as Hrange by nia.
  split; [|split; [|reflexivity]].
  - exists k. split; [done|]. split; [done|].
    rewrite spec_percentage_floor.
    set (n := Z.of_nat (Nat.max (length groups) 1)) in *.
    set (s := Z.of_nat (spec_successCount groups)) in *.
    assert (0 < 2 * n)%Z as Hn by lia.
    pose proof (Z.mul_div_le (200 * s + n) (2 * n) Hn) as Hlo.
    pose proof (Z.mul_succ_div_gt (200 * s + n) (2 * n) Hn) as Hhi.
    set (K := ((200 * s + n) / (2 * n))%Z) in *.
    destruct (Z.eq_dec k K) as [E|N]; [by left|].
    right. nia.
  - rewrite Ek. apply of_Z_not_nan. lia.
Qed.

Lemma progress_percentage_witness :
  (Z.of_nat (length three_groups) < 2 ^ 32)%Z /\
  (exists k : Z,
     progress three_groups = of_Z k /\
     (0 <= k <= 100)%Z /\
     (k = spec_percentage (spec_successCount three_groups)
            (length three_groups) \/
      (k = spec_percentage (spec_successCount three_groups)
             (length three_groups) - 1 /\
       200 * Z.of_nat (spec_successCount three_groups) =
         (2 * k + 1) * Z.of_nat (Nat.max (length three_groups) 1))%Z)) /\
  progress three_groups <> S754_nan /\
  progress [] = of_Z 0.
Proof.
  split; [reflexivity|].
  apply (progress_percentage three_groups). reflexivity.
Defined.

(** X12: the percentage shown is an integer nearest to the exact ratio
    [100 * successCount / max(total, 1)] (on a tie either neighbour): the
    two roundings of the division and of the product never move it further
    than that. *)
Theorem progress_nearest_integer (groups : list PostGroup) :
  (Z.of_nat (length groups) < 2 ^ 32)%Z ->
  exists k : Z,
    progress groups = of_Z k /\
    (0 <= k <= 100)%Z /\
    ((2 * k - 1) * Z.of_nat (Nat.max (length groups) 1)
       <= 200 * Z.of_nat (successCount groups)
       <= (2 * k + 1) * Z.of_nat (Nat.max (length groups) 1))%Z.
Proof.
  intros Hlen. destruct (progress_nearest groups Hlen) as (k & Ek & Hk).
  exists k. split; [done|]. split; [|done].
  pose proof (successCount_le groups). nia.
Qed.

Lemma progress_nearest_integer_witness :
  (Z.of_nat (length three_groups) < 2 ^ 32)%Z /\
  exists k : Z,
    progress three_groups = of_Z k /\
    (0 <= k <= 100)%Z /\
    ((2 * k - 1) * Z.of_nat (Nat.max (length three_groups) 1)
       <= 200 * Z.of_nat (successCount three_groups)
       <= (2 * k + 1) * Z.of_nat (Nat.max (length three_groups) 1))%Z.
Proof.
  split; [reflexivity|].
  apply (progress_nearest_integer three_groups). reflexivity.
Defined.

(** X13: when every group of a non-empty list has succeeded the percentage is
    exactly 100. *)
Theorem progress_all_succeeded (groups : list PostGroup) :
  (Z.of_nat (length groups) < 2 ^ 32)%Z ->
  groups <> [] ->
  Forall (fun group => status group = success) groups ->
  progress groups = of_Z 100.
Proof.
  intros Hlen Hne Hall.
  assert (successCount groups = length groups) as Es.
  { unfold successCount. clear Hlen Hne.
    induction Hall as [|group rest Hg _ IH]; [done|].
    rewrite filter_cons_True by done. cbn [length]. by rewrite IH. }
  destruct (progress_nearest groups Hlen) as (k & -> & Hk).
  rewrite Es in Hk. destruct groups as [|group rest]; [done|].
  f_equal. cbn [length] in Hk. nia.
Qed.

Lemma progress_all_succeeded_witness :
  (Z.of_nat (length [sample_group "a" success; sample_group "b" success])
     < 2 ^ 32)%Z /\
  [sample_group "a" success; sample_group "b" success] <> [] /\
  Forall (fun group => status group = success)
    [sample_group "a" success; sample_group "b" success] /\
  progress [sample_group "a" success; sample_group "b" success] = of_Z 100.
Proof.
  assert (Forall (fun group => status group = success)
            [sample_group "a" success; sample_group "b" success]) as H
    by (repeat constructor).
  split; [reflexivity|]. split; [discriminate|]. split; [exact H|].
  apply progress_all_succeeded; [reflexivity|discriminate|exact H].
Defined.

(** X14: when no group has succeeded the percentage is exactly 0. *)
Theorem progress_none_succeeded (groups : list PostGroup) :
  (Z.of_nat (length groups) < 2 ^ 32)%Z ->
  Forall (fun group => status group <> success) groups ->
  progress groups = of_Z 0.
Proof.
  intros Hlen Hnone.
  assert (successCount groups = 0) as Es.
  { unfold successCount. clear Hlen.
    induction Hnone as [|group rest Hg _ IH]; [done|].
    by rewrite filter_cons_False. }
  destruct (progress_nearest groups Hlen) as (k & -> & Hk).
  rewrite Es in Hk. f_equal. nia.
Qed.

Lemma progress_none_succeeded_witness :
  (Z.of_nat (length [sample_group "a" posting; sample_group "b" failed])
     < 2 ^ 32)%Z /\
  Forall (fun group => status group <> success)
    [sample_group "a" posting; sample_group "b" failed] /\
  progress [sample_group "a" posting; sample_group "b" failed] = of_Z 0.
Proof.
  assert (Forall (fun group => status group <> success)
            [sample_group "a" posting; sample_group "b" failed]) as H
    by (repeat constructor; discriminate).
  split; [reflexivity|]. split; [exact H|].
  apply progress_none_succeeded; [reflexivity|exact H].
Defined.

(** X15: the bar is full only near completion and empty only near the start:
    100 is shown only if at least 99.5% of the groups have succeeded, and
    0 only if at most 0.5% have. *)
Theorem progress_ends_only_near_extremes (groups : list PostGroup) :
  (Z.of_nat (length groups) < 2 ^ 32)%Z ->
  (progress groups <> of_Z 100 \/
   (199 * Z.of_nat (Nat.max (length groups) 1)
      <= 200 * Z.of_nat (successCount groups))%Z) /\
  (progress groups <> of_Z 0 \/
   (200 * Z.of_nat (successCount groups)
      <= Z.of_nat (Nat.max (length groups) 1))%Z).
Proof.
  intros Hlen.
  destruct (progress_nearest groups Hlen) as (k & Ek & Hk).
  pose proof (successCount_le groups) as Hs.
  assert (0 <= k <= 100)%Z as Hrange by nia.
  split.
  - destruct (Z.eq_dec k 100%Z) as [->|Hne]; [right; lia|].
    left. rewrite Ek. intros E. apply of_Z_inj in E; lia.
  - destruct (Z.eq_dec k 0%Z) as [->|Hne]; [right; lia|].
    left. rewrite Ek. intros E. apply of_Z_inj in E; lia.
Qed.

Lemma progress_ends_only_near_extremes_witness :
  (Z.of_nat (length three_groups) < 2 ^ 32)%Z /\
  (progress three_groups <> of_Z 100 \/
   (199 * Z.of_nat (Nat.max (length three_groups) 1)
      <= 200 * Z.of_nat (successCount three_groups))%Z).
Proof.
  split; [reflexivity|].
  apply (progress_ends_only_near_extremes three_groups). reflexivity.
Defined.

(** * The group rows *)

Lemma rows_from (posting : bool) (currentGroupIndex : Z)
    (groups : list PostGroup) (k : nat) :
  map row_number
    (imap (fun i => group_row posting currentGroupIndex (k + i)) groups) =
    seq (k + 1) (length groups) /\
  length (filter (fun row => row_current row = true)
            (imap (fun i => group_row posting currentGroupIndex (k + i))
               groups)) =
    if posting && (Z.of_nat k <=? currentGroupIndex)%Z &&
       (currentGroupIndex <? Z.of_nat (k + length groups))%Z
    then 1 else 0.
Proof.
  revert k. induction groups as [|group rest IH]; intros k.
  - split; [done|]. cbn. rewrite Nat.add_0_r.
    destruct posting; [|done]. cbn.
    destruct (Z.leb_spec (Z.of_nat k) currentGroupIndex),
             (Z.ltb_spec currentGroupIndex (Z.of_nat k)); try done; lia.
  - rewrite imap_cons.
    assert (imap ((fun i => group_row posting currentGroupIndex (k + i)) ∘ S)
              rest =
            imap (fun i => group_row posting currentGroupIndex (S k + i))
              rest) as ->.
    { apply imap_ext. intros i x _. cbn. f_equal. lia. }
    destruct (IH (S k)) as [IHn IHc]. split.
    + cbn [map length seq]. rewrite IHn. cbn [row_number group_row].
      by rewrite Nat.add_0_r.
    + rewrite filter_cons. cbn [row_current group_row].
      rewrite Nat.add_0_r.
      replace (k + length (group :: rest)) with (S k + length rest)
        by (cbn [length]; lia).
      destruct posting; cbn [andb] in *.
      * destruct (Z.eqb_spec (Z.of_nat k) currentGroupIndex) as [E|N].
        -- rewrite decide_True by done. cbn [length]. rewrite IHc.
           destruct (Z.leb_spec (Z.of_nat (S k)) currentGroupIndex); [lia|].
           destruct (Z.leb_spec (Z.of_nat k) currentGroupIndex); [|lia].
           destruct (Z.ltb_spec currentGroupIndex
                       (Z.of_nat (S k + length rest))); [done|lia].
        -- rewrite decide_False by done. rewrite IHc.
           destruct (Z.leb_spec (Z.of_nat (S k)) currentGroupIndex),
                    (Z.leb_spec (Z.of_nat k) currentGroupIndex);
             try done; lia.
      * rewrite andb_false_r. rewrite decide_False by done. by rewrite IHc.
Qed.

(** X16: what the progress branch of the top panel holds: the list is not
    empty, the caption never counts more groups done than there are, the
    rows are numbered 1, 2, ... in the order of the groups with their ids
    and statuses, and exactly one row is highlighted when posting is in
    progress and [currentGroupIndex] is a valid index, none otherwise. *)
Theorem renderStatus_rows (groups : list PostGroup) (posting : bool)
    (currentGroupIndex : Z) (width : Number) (done total : nat)
    (rows : list GroupRow) :
  renderStatus groups posting currentGroupIndex =
    ProgressBar width done total rows ->
  groups <> [] /\
  done <= total /\ total = length groups /\
  map row_number rows = seq 1 (length groups) /\
  map row_key rows = map group_id groups /\
  map row_status rows = map status groups /\
  length (filter (fun row => row_current row = true) rows) =
    if posting && (0 <=? currentGroupIndex)%Z &&
       (currentGroupIndex <? Z.of_nat (length groups))%Z
    then 1 else 0.
Proof.
  unfold renderStatus. destruct groups as [|group rest]; [done|].
  cbn [length Nat.eqb]. intros [= <- <- <- <-].
  destruct (rows_from posting currentGroupIndex (group :: rest) 0)
    as [Hn Hc].
  split; [done|]. split; [apply successCount_le|]. split; [done|].
  split; [exact Hn|].
  split; [|split; [|exact Hc]].
  - assert (forall k l, map row_key
              (imap (fun i => group_row posting currentGroupIndex (k + i)) l)
            = map group_id l) as H.
    { clear. intros k l. revert k.
      induction l as [|x l IH]; intros k; [done|].
      rewrite imap_cons. cbn [map]. f_equal.
      rewrite <- (IH (S k)). f_equal. apply imap_ext.
      intros i y _. cbn. f_equal. lia. }
    exact (H 0 (group :: rest)).
  - assert (forall k l, map row_status
              (imap (fun i => group_row posting currentGroupIndex (k + i)) l)
            = map status l) as H.
    { clear. intros k l. revert k.
      induction l as [|x l IH]; intros k; [done|].
      rewrite imap_cons. cbn [map]. f_equal.
      rewrite <- (IH (S k)). f_equal. apply imap_ext.
      intros i y _. cbn. f_equal. lia. }
    exact (H 0 (group :: rest)).
Qed.

Lemma renderStatus_rows_witness :
  renderStatus three_groups true 1 =
    ProgressBar (progress three_groups) 2 3
      (imap (group_row true 1) three_groups) /\
  length (filter (fun row => row_current row = true)
            (imap (group_row true 1) three_groups)) = 1.
Proof.
  split; [reflexivity|].
  apply (renderStatus_rows three_groups true 1 (progress three_groups) 2 3
           (imap (group_row true 1) three_groups)).
  reflexivity.
Defined.

(** X17: every row shows exactly one status label, and the four statuses get
    four different labels and four different colour classes. *)
Theorem status_labels_exclusive (st st' : Status) :
  length (status_labels st) = 1 /\
  (status_labels st = status_labels st' <-> st = st') /\
  (row_colours st = row_colours st' <-> st = st').
Proof.
  split; [by destruct st|].
  split; destruct st, st'; split; (done || discriminate).
Qed.
